(** * Particle burst of [src/app/page.tsx]: factory and simulation loop

    A shallow embedding of [clamp], [rand], [makeParticles] and the [tick]
    frame callback of [BurstCanvas].

    JavaScript numbers are read as real numbers: [+], [-], [*], [/],
    [Math.max], [Math.min], [Math.pow], [Math.cos], [Math.sin] are the
    operations of [R]; rounding to binary64 is outside the model.  The global
    generator behind [Math.random] is an infinite sequence of draws and a
    cursor into it, threaded through the code in the order the calls are
    evaluated.  The 2D context is a log of the calls made on it. *)

From Stdlib Require Import Reals Lra String List Bool Arith Lia.
Import ListNotations.

Open Scope R_scope.

(** ** Data model *)

(** [type BurstKind = "none" | "game" | "media"] *)
Inductive BurstKind : Type :=
| none
| game
| media.

Definition BurstKind_eqb (a b : BurstKind) : bool :=
  match a, b with
  | none, none | game, game | media, media => true
  | _, _ => false
  end.

(** [type Particle = { x; y; vx; vy; life; size; rot; vr; hollow }] *)
Record Particle : Type := mkParticle {
  x : R;
  y : R;
  vx : R;
  vy : R;
  life : R;
  size : R;
  rot : R;
  vr : R;
  hollow : bool
}.

(** [canvas.getBoundingClientRect()], of which the code reads [width] and
    [height]. *)
Record Rect : Type := mkRect { width : R; height : R }.

(** The calls and property writes [tick] makes on the 2D context. *)
Inductive CanvasCall : Type :=
| clearRect (cx cy w h : R)
| save
| restore
| translate (tx ty : R)
| rotate (a : R)
| set_globalAlpha (a : R)
| set_fillStyle (c : string)
| fillRect (cx cy w h : R)
| beginPath
| arc (cx cy r a0 a1 : R)
| set_lineWidth (w : R)
| set_strokeStyle (c : string)
| stroke
| fill.

(** The refs of [BurstCanvas] the loop reads and writes.  [rafRef] holds
    the handle of the pending frame request, if any. *)
Record Loop : Type := mkLoop {
  particlesRef : list Particle;
  lastTRef : R;
  rafRef : option nat
}.

(** The completion of a call [makeParticles(kind, x, y)].  The body has no
    [throw] statement and calls only [Math.random], [Math.cos], [Math.sin]
    and [push] on its own array, none of which throws: every call completes
    normally. *)
Inductive Completion (A : Type) : Type :=
| Normal (a : A)
| Throw (e : string).

Arguments Normal {A} a.
Arguments Throw {A} e.

(** ** Numeric helpers *)

Definition Math_max (a b : R) : R := Rmax a b.
Definition Math_min (a b : R) : R := Rmin a b.

(** [Math.pow] on a positive base, the only use the program makes of it
    ([drag] is [0.86] or [0.88]). *)
Definition Math_pow (b e : R) : R := Rpower b e.

Definition Math_PI : R := PI.

(** [n < m] and [n <= m] and [n > m] as the booleans JavaScript computes. *)
Definition num_lt (n m : R) : bool := if Rlt_dec n m then true else false.
Definition num_le (n m : R) : bool := if Rle_dec n m then true else false.
Definition num_gt (n m : R) : bool := if Rgt_dec n m then true else false.

(** [function clamp(n, a, b) { return Math.max(a, Math.min(b, n)); }] *)
Definition clamp (n a b : R) : R := Math_max a (Math_min b n).

(** ** The random source *)

(** The values successive calls of [Math.random()] return. *)
Definition Draws : Type := nat -> R.

(** [Math.random()] returns a number in [[0, 1)]. *)
Definition unit_draws (rnd : Draws) : Prop := forall i : nat, 0 <= rnd i < 1.

(** Code that calls [Math.random]: a state monad over the cursor. *)
Definition Gen (A : Type) : Type := nat -> A * nat.

Definition ret {A : Type} (a : A) : Gen A := fun i => (a, i).

Definition bind {A B : Type} (m : Gen A) (k : A -> Gen B) : Gen B :=
  fun i => let (a, j) := m i in k a j.

Notation "v <- m ;; k" := (bind m (fun v => k))
  (at level 61, m at next level, right associativity).

(** A particle and a canvas to try things on. *)
Definition sample_particle : Particle :=
  {| x := 100; y := 100; vx := 200; vy := -300; life := 1;
     size := 4; rot := 0; vr := 3; hollow := false |}.
Definition sample_rect : Rect := mkRect 200 200.

(** A source whose every draw is [1/2]. *)
Definition half_draws : Draws := fun _ => / 2.

Section Burst.

Variable rnd : Draws.

Definition Math_random : Gen R := fun i => (rnd i, S i).

(** [function rand(min, max) { return Math.random() * (max - min) + min; }] *)
Definition rand (min max : R) : Gen R :=
  u <- Math_random ;; ret (u * (max - min) + min).

(** ** Particle factory *)

(** The body of the [for] loop of [makeParticles]: the particle pushed on
    [out].  The draws happen in evaluation order: angle, speed, the two
    jitters, then the properties of the object literal from [size] down;
    [hollow] draws only for ["media"]. *)
Definition spawn (kind : BurstKind) (x0 y0 : R) : Gen Particle :=
  angle <- rand (- Math_PI * 0.9) (- Math_PI * 0.1) ;;
  speed <- (if BurstKind_eqb kind game then rand 140 360 else rand 110 280) ;;
  jx <- rand (-60) 60 ;;
  jy <- rand (-40) 40 ;;
  sz <- (if BurstKind_eqb kind game then rand 4 10 else rand 3 9) ;;
  r0 <- rand 0 (Math_PI * 2) ;;
  w <- rand (-6) 6 ;;
  h <- (if BurstKind_eqb kind media
        then u <- Math_random ;; ret (num_lt u 0.35)
        else ret false) ;;
  ret {| x := x0;
         y := y0;
         vx := cos angle * speed + jx;
         vy := sin angle * speed + jy;
         life := 1;
         size := sz;
         rot := r0;
         vr := w;
         hollow := h |}.

(** [for (let i = 0; i < count; i++) out.push({...})], with [n] the number
    of iterations still to run. *)
Fixpoint push_loop (kind : BurstKind) (x0 y0 : R) (n : nat)
    (out : list Particle) : Gen (list Particle) :=
  match n with
  | O => ret out
  | S n' => p <- spawn kind x0 y0 ;; push_loop kind x0 y0 n' (out ++ [p])
  end.

Definition particle_count (kind : BurstKind) : nat :=
  if BurstKind_eqb kind game then 55%nat else 45%nat.

(** [function makeParticles(kind, x, y): Particle[]] *)
Definition makeParticles (kind : BurstKind) (x0 y0 : R) : Gen (list Particle) :=
  push_loop kind x0 y0 (particle_count kind) [].

(** The call [makeParticles(kind, x, y)] with its completion. *)
Definition call_makeParticles (kind : BurstKind) (x0 y0 : R) (i : nat)
    : Completion (list Particle * nat) :=
  Normal (makeParticles kind x0 y0 i).

(** ** Simulation loop *)

(** [const g = kind === "game" ? 520 : 420] *)
Definition g (kind : BurstKind) : R :=
  if BurstKind_eqb kind game then 520 else 420.

(** [const drag = kind === "game" ? 0.86 : 0.88] *)
Definition drag (kind : BurstKind) : R :=
  if BurstKind_eqb kind game then 0.86 else 0.88.

(** [kind === "game" ? 1.35 : 1.2], the factor of [dt] in the fade. *)
Definition fade (kind : BurstKind) : R :=
  if BurstKind_eqb kind game then 1.35 else 1.2.

(** [const dt = clamp((t - lastTRef.current) / 1000, 0, 0.033)] *)
Definition frame_dt (t last : R) : R := clamp ((t - last) / 1000) 0 0.033.

(** The "Physics" and "Fade out" assignments of the loop body, in order. *)
Definition physics (kind : BurstKind) (dt : R) (p : Particle) : Particle :=
  let vy1 := vy p + g kind * dt in
  let vx2 := vx p * Math_pow (drag kind) (dt * 60) in
  let vy2 := vy1 * Math_pow (drag kind) (dt * 60) in
  let x1 := x p + vx2 * dt in
  let y1 := y p + vy2 * dt in
  let rot1 := rot p + vr p * dt in
  let life1 := life p - dt * fade kind in
  let life2 := clamp life1 0 1 in
  {| x := x1; y := y1; vx := vx2; vy := vy2; life := life2;
     size := size p; rot := rot1; vr := vr p; hollow := hollow p |}.

(** The rest of the loop body: the context calls made for the updated
    particle [p].  [if (a <= 0) continue;] makes none. *)
Definition draw (kind : BurstKind) (p : Particle) : Gen (list CanvasCall) :=
  let a := life p in
  if num_le a 0 then ret []
  else if BurstKind_eqb kind game then
    let s := size p in
    ret [save; translate (x p) (y p); rotate (rot p); set_globalAlpha a;
         set_fillStyle "rgba(255,255,255,1)";
         fillRect (- s / 2) (- s / 2) s s; restore]
  else
    u <- Math_random ;;
    let isHot := num_lt u 0.5 in
    let fill_c := if isHot then "#d10b66"%string else "#ff5aa5"%string in
    let stroke_c := if isHot then "#ff5aa5"%string else "#d10b66"%string in
    let r := size p / 2 in
    ret ([save; set_globalAlpha a; beginPath;
          arc (x p) (y p) r 0 (Math_PI * 2)]
         ++ (if hollow p
             then [set_lineWidth 2; set_strokeStyle stroke_c; stroke]
             else [set_fillStyle fill_c; fill])
         ++ [restore]).

(** [for (const p of particles) { ... }]: the particles as mutated in place
    and the calls logged, in iteration order. *)
Fixpoint for_particles (kind : BurstKind) (dt : R) (ps : list Particle)
    : Gen (list Particle * list CanvasCall) :=
  match ps with
  | [] => ret ([], [])
  | p :: rest =>
      let p' := physics kind dt p in
      calls <- draw kind p' ;;
      r <- for_particles kind dt rest ;;
      ret (p' :: fst r, calls ++ snd r)
  end.

(** [const tick = (t: number) => { ... }].  [rect] is the rectangle the
    effect captured; [handle] is what [requestAnimationFrame] returns if
    this frame calls it. *)
Definition tick (kind : BurstKind) (rect : Rect) (t : R) (handle : nat)
    (st : Loop) : Gen (Loop * list CanvasCall) :=
  let dt := frame_dt t (lastTRef st) in
  r <- for_particles kind dt (particlesRef st) ;;
  let alive := filter (fun p => num_gt (life p) 0) (fst r) in
  ret ({| particlesRef := alive;
          lastTRef := t;
          rafRef := match alive with
                    | [] => None
                    | _ :: _ => Some handle
                    end |},
       clearRect 0 0 (width rect) (height rect) :: snd r).

(** The body of the second [useEffect]: nothing happens unless the burst
    is active, of a kind other than ["none"], and the canvas with its 2D
    context is there; [canvas] is its bounding rectangle then. *)
Definition activate (active : bool) (kind : BurstKind) (canvas : option Rect)
    (now : R) (handle : nat) (st : Loop) : Gen Loop :=
  if negb active || BurstKind_eqb kind none then ret st
  else match canvas with
       | None => ret st
       | Some rect =>
           ps <- makeParticles kind (width rect / 2) (height rect / 2) ;;
           ret {| particlesRef := ps; lastTRef := now; rafRef := Some handle |}
       end.

(** The states of the loop of one burst: what [activate] leaves, and what
    each later frame leaves. *)
Inductive Reachable (kind : BurstKind) (rect : Rect) : Loop * nat -> Prop :=
| reach_activate : forall now handle st0 i,
    kind <> none ->
    Reachable kind rect (activate true kind (Some rect) now handle st0 i)
| reach_tick : forall st i t handle,
    Reachable kind rect (st, i) ->
    Reachable kind rect
      (let (r, j) := tick kind rect t handle st i in (fst r, j)).

(** A particle after the frames whose elapsed times are [dts], if it is
    still in the burst then. *)
Definition after_frames (kind : BurstKind) (dts : list R) (p : Particle)
    : Particle :=
  fold_left (fun q dt => physics kind dt q) dts p.

(** The refs as [useRef] creates them: [useRef([])], [useRef(0)],
    [useRef(null)]. *)
Definition initial_refs : Loop :=
  {| particlesRef := []; lastTRef := 0; rafRef := None |}.

(** The sum of the elapsed times of a run of frames. *)
Definition total_time (dts : list R) : R := fold_right Rplus 0 dts.

(** The styles that name a burst: ["game"] and ["media"]. *)
Definition recognized (kind : BurstKind) : Prop := kind = game \/ kind = media.

(** The range [size] is drawn from. *)
Definition size_lo (kind : BurstKind) : R :=
  if BurstKind_eqb kind game then 4 else 3.
Definition size_hi (kind : BurstKind) : R :=
  if BurstKind_eqb kind game then 10 else 9.

(** The cleanup the effect returns: the pending frame is cancelled, the
    handle forgotten and the burst dropped. *)
Definition cleanup (st : Loop) : Loop :=
  {| particlesRef := []; lastTRef := lastTRef st; rafRef := None |}.

(** The frames the browser delivers, each with its timestamp and with the
    handle [requestAnimationFrame] returns if the frame asks for another.
    A callback runs only for a request that is pending: once [tick] has
    left [rafRef] empty no later frame calls it.  The result is the loop
    after the last frame and the log of each frame that ran. *)
Fixpoint run (kind : BurstKind) (rect : Rect) (frames : list (R * nat))
    (st : Loop) : Gen (Loop * list (list CanvasCall)) :=
  match frames with
  | [] => ret (st, [])
  | (t, handle) :: rest =>
      match rafRef st with
      | None => ret (st, [])
      | Some _ =>
          r <- tick kind rect t handle st ;;
          r' <- run kind rect rest (fst r) ;;
          ret (fst r', snd r :: snd r')
      end
  end.

(** The elapsed times [tick] computes for frames at the timestamps [ts],
    the last frame before them having been at [last]. *)
Fixpoint frame_dts (last : R) (ts : list R) : list R :=
  match ts with
  | [] => []
  | t :: rest => frame_dt t last :: frame_dts t rest
  end.

(** The number of [Math.random()] calls one iteration of [makeParticles]
    makes. *)
Definition draws_per (kind : BurstKind) : nat :=
  if BurstKind_eqb kind media then 8%nat else 7%nat.

(** The range [speed] is drawn from. *)
Definition speed_lo (kind : BurstKind) : R :=
  if BurstKind_eqb kind game then 140 else 110.
Definition speed_hi (kind : BurstKind) : R :=
  if BurstKind_eqb kind game then 360 else 280.

(** The downward speed gravity and drag settle below: [g] over the rate
    [60 (1 - drag)] at which drag takes speed away. *)
Definition terminal (kind : BurstKind) : R :=
  g kind / (60 * (1 - drag kind)).

(** Reading a log of context calls with the depth of the [save] stack:
    [save] pushes, [restore] pops and must have something to pop, and a
    write of the drawing state ([translate], [rotate], [globalAlpha],
    the styles, [lineWidth]) must be inside a [save].  The result is the
    depth at the end, if the log is read through. *)
Fixpoint scan (depth : nat) (log : list CanvasCall) : option nat :=
  match log with
  | [] => Some depth
  | c :: rest =>
      match c with
      | save => scan (S depth) rest
      | restore =>
          match depth with
          | O => None
          | S d => scan d rest
          end
      | translate _ _ | rotate _ | set_globalAlpha _ | set_fillStyle _
      | set_lineWidth _ | set_strokeStyle _ =>
          match depth with
          | O => None
          | S _ => scan depth rest
          end
      | _ => scan depth rest
      end
  end.

(** The opacities a log writes to [globalAlpha]. *)
Fixpoint alphas (log : list CanvasCall) : list R :=
  match log with
  | [] => []
  | set_globalAlpha a :: rest => a :: alphas rest
  | _ :: rest => alphas rest
  end.

(** * Properties *)

(** ** Numbers *)

Lemma clamp_bounds (n a b : R) : a <= b -> a <= clamp n a b <= b.
Proof.
  intros Hab. unfold clamp, Math_max, Math_min. split.
  - apply Rmax_l.
  - apply Rmax_lub; [exact Hab | apply Rmin_l].
Qed.

Lemma clamp_inside (n a b : R) : a <= n <= b -> clamp n a b = n.
Proof.
  intros [Hl Hu]. unfold clamp, Math_max, Math_min.
  rewrite (Rmin_right b n Hu). apply Rmax_right. exact Hl.
Qed.

Lemma clamp_mono_sub (n d : R) : 0 <= n -> 0 <= d -> clamp (n - d) 0 1 <= n.
Proof.
  intros Hn Hd. unfold clamp, Math_max, Math_min.
  apply Rmax_lub; [exact Hn |].
  eapply Rle_trans; [apply Rmin_r | lra].
Qed.

Lemma num_le_true (n m : R) : n <= m -> num_le n m = true.
Proof.
  intros H. unfold num_le. destruct (Rle_dec n m); [reflexivity | tauto].
Qed.

Lemma num_le_false (n m : R) : m < n -> num_le n m = false.
Proof.
  intros H. unfold num_le. destruct (Rle_dec n m); [lra | reflexivity].
Qed.

Lemma num_gt_true (n m : R) : n > m -> num_gt n m = true.
Proof.
  intros H. unfold num_gt. destruct (Rgt_dec n m); [reflexivity | tauto].
Qed.

Lemma num_gt_iff (n m : R) : num_gt n m = true <-> n > m.
Proof.
  unfold num_gt. destruct (Rgt_dec n m); split; intros H;
    try reflexivity; try assumption; try discriminate; tauto.
Qed.

Lemma num_gt_false (n m : R) : n <= m -> num_gt n m = false.
Proof.
  intros H. unfold num_gt. destruct (Rgt_dec n m); [lra | reflexivity].
Qed.

Lemma drag_pos (kind : BurstKind) : 0 < drag kind.
Proof. unfold drag. destruct (BurstKind_eqb kind game); lra. Qed.

Lemma fade_pos (kind : BurstKind) : 0 < fade kind.
Proof. unfold fade. destruct (BurstKind_eqb kind game); lra. Qed.

Lemma frame_dt_bounds (t last : R) : 0 <= frame_dt t last <= 0.033.
Proof. unfold frame_dt. apply clamp_bounds. lra. Qed.

(** ** The factory *)

(** What one iteration pushes, field by field, from the cursor [i] it
    starts at. *)
Lemma spawn_fields (kind : BurstKind) (x0 y0 : R) (i : nat) :
  let p := fst (spawn kind x0 y0 i) in
  x p = x0 /\ y p = y0 /\ life p = 1
  /\ size p = rnd (i + 4)%nat * (size_hi kind - size_lo kind) + size_lo kind
  /\ rot p = rnd (i + 5)%nat * (Math_PI * 2 - 0) + 0
  /\ vr p = rnd (i + 6)%nat * (6 - -6) + -6
  /\ hollow p = (if BurstKind_eqb kind media
                 then num_lt (rnd (i + 7)%nat) 0.35 else false).
Proof.
  replace (i + 4)%nat with (S (S (S (S i)))) by lia.
  replace (i + 5)%nat with (S (S (S (S (S i))))) by lia.
  replace (i + 6)%nat with (S (S (S (S (S (S i)))))) by lia.
  replace (i + 7)%nat with (S (S (S (S (S (S (S i))))))) by lia.
  unfold size_hi, size_lo.
  destruct kind; cbv [spawn bind rand ret Math_random BurstKind_eqb fst];
    repeat split; reflexivity.
Qed.

(** Whatever holds of every pushed particle holds of all the loop adds, and
    the loop adds one particle per iteration after those already in [out]. *)
Lemma push_loop_adds (kind : BurstKind) (x0 y0 : R) (P : Particle -> Prop) :
  (forall i, P (fst (spawn kind x0 y0 i))) ->
  forall n out i,
    exists l, fst (push_loop kind x0 y0 n out i) = out ++ l
              /\ length l = n /\ Forall P l.
Proof.
  intros HP. induction n as [| n IH]; intros out i.
  - exists []. simpl. rewrite app_nil_r. auto.
  - simpl. unfold bind at 1.
    destruct (spawn kind x0 y0 i) as [p j] eqn:Hs.
    destruct (IH (out ++ [p]) j) as [l [Hl [Hn HF]]].
    exists (p :: l). rewrite Hl, <- app_assoc. simpl.
    repeat split; [now rewrite Hn |].
    constructor; [| exact HF].
    specialize (HP i). rewrite Hs in HP. exact HP.
Qed.

Lemma makeParticles_all (kind : BurstKind) (x0 y0 : R) (P : Particle -> Prop) :
  (forall i, P (fst (spawn kind x0 y0 i))) ->
  forall i, Forall P (fst (makeParticles kind x0 y0 i)).
Proof.
  intros HP i. unfold makeParticles.
  destruct (push_loop_adds kind x0 y0 P HP (particle_count kind) [] i)
    as [l [Hl [_ HF]]].
  rewrite Hl. exact HF.
Qed.

Lemma makeParticles_length (kind : BurstKind) (x0 y0 : R) (i : nat) :
  length (fst (makeParticles kind x0 y0 i)) = particle_count kind.
Proof.
  unfold makeParticles.
  destruct (push_loop_adds kind x0 y0 (fun _ => True) (fun _ => I)
              (particle_count kind) [] i) as [l [Hl [Hn _]]].
  rewrite Hl. exact Hn.
Qed.

(** The first particle pushed is in the burst. *)
Lemma first_spawn_in (kind : BurstKind) (x0 y0 : R) (i : nat) :
  In (fst (spawn kind x0 y0 i)) (fst (makeParticles kind x0 y0 i)).
Proof.
  unfold makeParticles.
  assert (Hc : exists n, particle_count kind = S n).
  { unfold particle_count. destruct (BurstKind_eqb kind game); eauto. }
  destruct Hc as [n Hn]. rewrite Hn. simpl. unfold bind at 1.
  destruct (spawn kind x0 y0 i) as [p j]. simpl.
  destruct (push_loop_adds kind x0 y0 (fun _ => True) (fun _ => I) n [p] j)
    as [l [Hl _]].
  rewrite Hl. simpl. auto.
Qed.

(** ** The loop *)

Lemma physics_life (kind : BurstKind) (dt : R) (p : Particle) :
  life (physics kind dt p) = clamp (life p - dt * fade kind) 0 1.
Proof. reflexivity. Qed.

Lemma physics_life_bounds (kind : BurstKind) (dt : R) (p : Particle) :
  0 <= life (physics kind dt p) <= 1.
Proof. rewrite physics_life. apply clamp_bounds. lra. Qed.

Lemma physics_life_le (kind : BurstKind) (dt : R) (p : Particle) :
  0 <= life p -> 0 <= dt -> life (physics kind dt p) <= life p.
Proof.
  intros Hl Hdt. rewrite physics_life. apply clamp_mono_sub; [exact Hl |].
  pose proof (fade_pos kind). nra.
Qed.

(** With no time elapsed the assignments change nothing, the clamp of
    [life] included once [life] is in the unit interval. *)
Lemma physics_zero (kind : BurstKind) (p : Particle) :
  0 <= life p <= 1 -> physics kind 0 p = p.
Proof.
  intros Hl. destruct p as [px py pvx pvy pl ps pr pw ph]. simpl in Hl.
  unfold physics, Math_pow. simpl.
  replace (0 * 60) with 0 by lra.
  rewrite (Rpower_O (drag kind) (drag_pos kind)).
  replace (pl - 0 * fade kind) with pl by lra.
  rewrite (clamp_inside pl 0 1 Hl).
  f_equal; lra.
Qed.

(** The loop updates every particle, in order. *)
Lemma for_particles_updates (kind : BurstKind) (dt : R) (ps : list Particle)
    (i : nat) :
  fst (fst (for_particles kind dt ps i)) = map (physics kind dt) ps.
Proof.
  revert i. induction ps as [| p rest IH]; intros i; [reflexivity |].
  simpl. unfold bind at 1.
  destruct (draw kind (physics kind dt p) i) as [calls j].
  unfold bind at 1. specialize (IH j).
  destruct (for_particles kind dt rest j) as [r k]. simpl in *.
  now rewrite IH.
Qed.

(** The log of the loop is made of the calls drawn for each updated
    particle in turn, each at the cursor the generator has reached. *)
Lemma for_particles_log (kind : BurstKind) (dt : R) (ps : list Particle)
    (i : nat) :
  exists js : list nat,
    length js = length ps
    /\ snd (fst (for_particles kind dt ps i))
       = concat (map (fun pj => fst (draw kind (physics kind dt (fst pj))
                                      (snd pj)))
                     (combine ps js)).
Proof.
  revert i. induction ps as [| p rest IH]; intros i.
  - exists []. split; reflexivity.
  - simpl. unfold bind at 1.
    destruct (draw kind (physics kind dt p) i) as [calls j] eqn:Hd.
    unfold bind at 1. destruct (IH j) as [js [Hlen Hlog]].
    destruct (for_particles kind dt rest j) as [r k]. simpl in *.
    exists (i :: js). split; [simpl; congruence |].
    simpl. rewrite Hd. simpl. now rewrite Hlog.
Qed.

Lemma tick_particles (kind : BurstKind) (rect : Rect) (t : R) (handle : nat)
    (st : Loop) (i : nat) :
  particlesRef (fst (fst (tick kind rect t handle st i)))
  = filter (fun p => num_gt (life p) 0)
      (map (physics kind (frame_dt t (lastTRef st))) (particlesRef st)).
Proof.
  unfold tick, bind.
  pose proof (for_particles_updates kind (frame_dt t (lastTRef st))
                (particlesRef st) i) as Hu.
  destruct (for_particles kind (frame_dt t (lastTRef st)) (particlesRef st) i)
    as [r j].
  simpl in *. now rewrite Hu.
Qed.

Lemma tick_log (kind : BurstKind) (rect : Rect) (t : R) (handle : nat)
    (st : Loop) (i : nat) :
  snd (fst (tick kind rect t handle st i))
  = clearRect 0 0 (width rect) (height rect)
      :: snd (fst (for_particles kind (frame_dt t (lastTRef st))
                     (particlesRef st) i)).
Proof.
  unfold tick, bind.
  destruct (for_particles kind (frame_dt t (lastTRef st)) (particlesRef st) i)
    as [r j].
  reflexivity.
Qed.

Lemma activate_burst (kind : BurstKind) (rect : Rect) (now : R)
    (handle : nat) (st0 : Loop) (i : nat) :
  kind <> none ->
  fst (activate true kind (Some rect) now handle st0 i)
  = {| particlesRef :=
         fst (makeParticles kind (width rect / 2) (height rect / 2) i);
       lastTRef := now;
       rafRef := Some handle |}.
Proof.
  intros Hk. unfold activate.
  replace (negb true || BurstKind_eqb kind none) with false
    by (destruct kind; [contradiction | reflexivity | reflexivity]).
  unfold bind.
  destruct (makeParticles kind (width rect / 2) (height rect / 2) i).
  reflexivity.
Qed.

Lemma after_frames_fixed_fields (kind : BurstKind) (dts : list R)
    (p : Particle) :
  size (after_frames kind dts p) = size p
  /\ hollow (after_frames kind dts p) = hollow p
  /\ vr (after_frames kind dts p) = vr p.
Proof.
  unfold after_frames. revert p.
  induction dts as [| dt dts IH]; intros p; [repeat split; reflexivity |].
  simpl. destruct (IH (physics kind dt p)) as [Hs [Hh Hw]].
  rewrite Hs, Hh, Hw. repeat split; reflexivity.
Qed.

(** What is drawn for a particle, case by case. *)
Lemma draw_dead (kind : BurstKind) (p : Particle) (i : nat) :
  life p <= 0 -> draw kind p i = ([], i).
Proof. intros H. unfold draw. now rewrite num_le_true. Qed.

Lemma draw_game (p : Particle) (i : nat) :
  0 < life p ->
  draw game p i
  = ([save; translate (x p) (y p); rotate (rot p); set_globalAlpha (life p);
      set_fillStyle "rgba(255,255,255,1)";
      fillRect (- size p / 2) (- size p / 2) (size p) (size p); restore], i).
Proof. intros H. unfold draw. now rewrite num_le_false. Qed.

Lemma draw_circle (kind : BurstKind) (p : Particle) (i : nat) :
  0 < life p -> kind <> game ->
  draw kind p i
  = ([save; set_globalAlpha (life p); beginPath;
      arc (x p) (y p) (size p / 2) 0 (Math_PI * 2)]
     ++ (if hollow p
         then [set_lineWidth 2;
               set_strokeStyle (if num_lt (rnd i) 0.5
                                then "#ff5aa5"%string else "#d10b66"%string);
               stroke]
         else [set_fillStyle (if num_lt (rnd i) 0.5
                              then "#d10b66"%string else "#ff5aa5"%string);
               fill])
     ++ [restore], S i).
Proof.
  intros H Hk. unfold draw. rewrite num_le_false by exact H.
  replace (BurstKind_eqb kind game) with false
    by (destruct kind; [reflexivity | contradiction | reflexivity]).
  reflexivity.
Qed.

(** Every particle of a burst is alive, and its [life] is at most [1]. *)
Lemma reachable_life (kind : BurstKind) (rect : Rect) (s : Loop * nat) :
  Reachable kind rect s ->
  Forall (fun p => 0 < life p <= 1) (particlesRef (fst s)).
Proof.
  intros H. induction H as [now handle st0 i Hk | st i t handle H IH].
  - rewrite activate_burst by exact Hk. simpl.
    apply makeParticles_all. intros j.
    destruct (spawn_fields kind (width rect / 2) (height rect / 2) j)
      as [_ [_ [Hl _]]].
    rewrite Hl. lra.
  - pose proof (tick_particles kind rect t handle st i) as Ht.
    destruct (tick kind rect t handle st i) as [r j]. simpl in *.
    rewrite Ht. apply Forall_forall. intros q Hq.
    apply filter_In in Hq. destruct Hq as [Hq Hal].
    apply num_gt_iff in Hal.
    apply in_map_iff in Hq. destruct Hq as [p [Hp _]]. subst q.
    pose proof (physics_life_bounds kind (frame_dt t (lastTRef st)) p).
    lra.
Qed.

(** A burst never has more particles than the factory made. *)
Lemma reachable_count (kind : BurstKind) (rect : Rect) (s : Loop * nat) :
  Reachable kind rect s ->
  (length (particlesRef (fst s)) <= particle_count kind)%nat.
Proof.
  intros H. induction H as [now handle st0 i Hk | st i t handle H IH].
  - rewrite activate_burst by exact Hk. simpl.
    now rewrite makeParticles_length.
  - pose proof (tick_particles kind rect t handle st i) as Ht.
    destruct (tick kind rect t handle st i) as [r j]. simpl in *.
    rewrite Ht.
    eapply Nat.le_trans; [apply filter_length_le |].
    now rewrite length_map.
Qed.

(** ** What a frame writes to the context *)

Lemma scan_app (l1 l2 : list CanvasCall) :
  forall d : nat,
    scan d (l1 ++ l2)
    = match scan d l1 with
      | Some d' => scan d' l2
      | None => None
      end.
Proof.
  induction l1 as [| c l1 IH]; intros d; [reflexivity |].
  destruct c; simpl; try apply IH; destruct d; try reflexivity; apply IH.
Qed.

Lemma alphas_app (l1 l2 : list CanvasCall) :
  alphas (l1 ++ l2) = alphas l1 ++ alphas l2.
Proof.
  induction l1 as [| c l1 IH]; [reflexivity |].
  destruct c; simpl; rewrite IH; reflexivity.
Qed.

(** What is drawn for one particle: a [save], writes and paints inside
    it, and its [restore]; one opacity, the [life] of the particle; and
    one draw from the random source unless the kind is "game". *)
Lemma draw_shape (kind : BurstKind) (p : Particle) (i d : nat) :
  scan d (fst (draw kind p i)) = Some d
  /\ alphas (fst (draw kind p i))
     = (if num_gt (life p) 0 then [life p] else [])
  /\ snd (draw kind p i)
     = (if num_gt (life p) 0
        then if BurstKind_eqb kind game then i else S i
        else i).
Proof.
  destruct (Rle_dec (life p) 0) as [Hd | Ha].
  - rewrite draw_dead by exact Hd. rewrite num_gt_false by exact Hd.
    repeat split; reflexivity.
  - rewrite num_gt_true by lra. destruct kind.
    + rewrite draw_circle by (lra || discriminate).
      destruct (hollow p); repeat split; reflexivity.
    + rewrite draw_game by lra. repeat split; reflexivity.
    + rewrite draw_circle by (lra || discriminate).
      destruct (hollow p); repeat split; reflexivity.
Qed.

Lemma for_particles_shape (kind : BurstKind) (dt : R) (ps : list Particle) :
  forall i d : nat,
    let r := for_particles kind dt ps i in
    let kept := filter (fun p => num_gt (life p) 0)
                  (map (physics kind dt) ps) in
    scan d (snd (fst r)) = Some d
    /\ alphas (snd (fst r)) = map life kept
    /\ snd r = (if BurstKind_eqb kind game then i
                else (i + length kept)%nat).
Proof.
  induction ps as [| p rest IH]; intros i d.
  - simpl. repeat split; try reflexivity.
    destruct (BurstKind_eqb kind game); [reflexivity | lia].
  - cbv zeta.
    assert (Heq : for_particles kind dt (p :: rest) i
                  = (let (calls, j) := draw kind (physics kind dt p) i in
                     let (r, k) := for_particles kind dt rest j in
                     ((physics kind dt p :: fst r, calls ++ snd r), k)))
      by reflexivity.
    rewrite Heq. clear Heq.
    destruct (draw_shape kind (physics kind dt p) i d) as [Hs [Ha Hc]].
    destruct (draw kind (physics kind dt p) i) as [calls j].
    destruct (IH j d) as [Hs' [Ha' Hc']].
    destruct (for_particles kind dt rest j) as [r k].
    cbn [fst snd] in Hs, Ha, Hc, Hs', Ha', Hc' |- *.
    rewrite scan_app, Hs, alphas_app, Ha, Ha', Hc', Hc.
    split; [exact Hs' |].
    cbn [map filter].
    destruct (num_gt (life (physics kind dt p)) 0);
      destruct (BurstKind_eqb kind game); cbn [map length app];
      (split; [reflexivity | reflexivity || lia]).
Qed.

(** The log of the loop for "media", written out: for each particle the
    frame keeps, in order, the circle, stroked if the particle is hollow
    and filled if not, in the colors the draw at its cursor decides. *)
Lemma for_particles_media_log (dt : R) (ps : list Particle) :
  forall i : nat,
    let kept := filter (fun p => num_gt (life p) 0)
                  (map (physics media dt) ps) in
    snd (fst (for_particles media dt ps i))
    = concat
        (map (fun qk =>
                [save; set_globalAlpha (life (fst qk)); beginPath;
                 arc (x (fst qk)) (y (fst qk)) (size (fst qk) / 2) 0
                   (Math_PI * 2)]
                ++ (if hollow (fst qk)
                    then [set_lineWidth 2;
                          set_strokeStyle
                            (if num_lt (rnd (snd qk)) 0.5
                             then "#ff5aa5"%string else "#d10b66"%string);
                          stroke]
                    else [set_fillStyle
                            (if num_lt (rnd (snd qk)) 0.5
                             then "#d10b66"%string else "#ff5aa5"%string);
                          fill])
                ++ [restore])
             (combine kept (seq i (length kept)))).
Proof.
  induction ps as [| p rest IH]; intros i; [reflexivity |].
  cbv zeta.
  assert (Heq : for_particles media dt (p :: rest) i
                = (let (calls, j) := draw media (physics media dt p) i in
                   let (r, k) := for_particles media dt rest j in
                   ((physics media dt p :: fst r, calls ++ snd r), k)))
    by reflexivity.
  rewrite Heq. clear Heq. cbn [map filter].
  destruct (Rle_dec (life (physics media dt p)) 0) as [Hd | Ha].
  - rewrite draw_dead by exact Hd. rewrite num_gt_false by exact Hd.
    specialize (IH i). cbv zeta in IH.
    destruct (for_particles media dt rest i) as [r k].
    cbn [fst snd app] in IH |- *. exact IH.
  - rewrite draw_circle by (lra || discriminate).
    rewrite num_gt_true by lra.
    specialize (IH (S i)). cbv zeta in IH.
    destruct (for_particles media dt rest (S i)) as [r k].
    cbn [fst snd] in IH |- *. rewrite IH.
    cbn [length seq combine map concat fst snd]. reflexivity.
Qed.

Lemma clamp_above (n a b : R) : a <= b -> b <= n -> clamp n a b = b.
Proof.
  intros Hab Hn. unfold clamp, Math_max, Math_min.
  rewrite Rmin_left by exact Hn. apply Rmax_right. exact Hab.
Qed.

Lemma clamp_at_most_lower (n a b : R) : a <= b -> n <= a -> clamp n a b = a.
Proof.
  intros Hab Hn. unfold clamp, Math_max, Math_min.
  rewrite Rmin_right by lra. apply Rmax_left. exact Hn.
Qed.

(** [frame_dt] is the time from the last frame to this one in seconds,
    cut to [0] below and to [0.033] above. *)
Lemma frame_dt_cases (t last : R) :
  0 <= frame_dt t last <= 0.033
  /\ (t <= last -> frame_dt t last = 0)
  /\ (0 <= t - last <= 33 -> frame_dt t last = (t - last) / 1000)
  /\ (33 <= t - last -> frame_dt t last = 0.033).
Proof.
  split; [apply frame_dt_bounds |]. unfold frame_dt.
  split; [intros H; apply clamp_at_most_lower; lra |].
  split; [intros H; apply clamp_inside; lra |].
  intros H; apply clamp_above; lra.
Qed.

Lemma tick_lastT (kind : BurstKind) (rect : Rect) (t : R) (handle : nat)
    (st : Loop) (i : nat) :
  lastTRef (fst (fst (tick kind rect t handle st i))) = t.
Proof.
  unfold tick, bind.
  destruct (for_particles kind (frame_dt t (lastTRef st)) (particlesRef st) i)
    as [r j].
  reflexivity.
Qed.

(** A frame with no time elapsed, on particles that are alive and have
    [life] at most [1]: they are all kept as they are, the log is what is
    drawn for each of them in turn, and the opacities written are their
    [life] values. *)
Lemma tick_zero_dt (kind : BurstKind) (rect : Rect) (t : R) (handle : nat)
    (st : Loop) (i : nat) :
  Forall (fun p => 0 < life p <= 1) (particlesRef st) ->
  frame_dt t (lastTRef st) = 0 ->
  let r := fst (tick kind rect t handle st i) in
  particlesRef (fst r) = particlesRef st
  /\ (exists js : list nat,
         length js = length (particlesRef st)
         /\ snd r
            = clearRect 0 0 (width rect) (height rect)
                :: concat (map (fun pj => fst (draw kind (fst pj) (snd pj)))
                               (combine (particlesRef st) js)))
  /\ alphas (snd r) = map life (particlesRef st).
Proof.
  intros Hinv Hdt. cbv zeta. rewrite Forall_forall in Hinv.
  assert (Hid : forall p, In p (particlesRef st) -> physics kind 0 p = p).
  { intros p Hp. apply physics_zero. pose proof (Hinv p Hp). lra. }
  assert (Hkept : filter (fun p => num_gt (life p) 0)
                    (map (physics kind 0) (particlesRef st))
                  = particlesRef st).
  { rewrite (map_ext_in _ (fun p => p) _ Hid), map_id.
    apply forallb_filter_id. apply forallb_forall. intros p Hp.
    apply num_gt_true. pose proof (Hinv p Hp). lra. }
  split; [rewrite tick_particles, Hdt; exact Hkept |].
  rewrite tick_log, Hdt. split.
  - destruct (for_particles_log kind 0 (particlesRef st) i)
      as [js [Hlen Hlog]].
    exists js. split; [exact Hlen |]. rewrite Hlog. do 2 f_equal.
    apply map_ext_in. intros [p j] Hin. apply in_combine_l in Hin.
    simpl. now rewrite (Hid p Hin).
  - cbn [alphas].
    destruct (for_particles_shape kind 0 (particlesRef st) i 0%nat)
      as [_ [Ha _]].
    rewrite Ha, Hkept. reflexivity.
Qed.

(** * Specified properties *)

(** C1.  One step of a "game" burst with [dt = 1/60] on a particle of
    velocity [(200, -300)] and [life = 1]: gravity is added to [vy] first,
    then both components are scaled by [0.86^(dt*60) = 0.86]; the position
    advances by the scaled velocity times [dt]; [life] falls by
    [1.35/60 = 0.0225] to [0.9775].  The frame that follows the last one by
    [1000/60] ms is such a step. *)
Theorem game_step_sixtieth (x0 y0 sz r0 w : R) (h : bool) :
  let p := {| x := x0; y := y0; vx := 200; vy := -300; life := 1;
              size := sz; rot := r0; vr := w; hollow := h |} in
  let p' := {| x := x0 + 200 * 0.86 * (1 / 60);
               y := y0 + (-300 + 520 * (1 / 60)) * 0.86 * (1 / 60);
               vx := 200 * 0.86;
               vy := (-300 + 520 * (1 / 60)) * 0.86;
               life := 0.9775;
               size := sz; rot := r0 + w * (1 / 60); vr := w;
               hollow := h |} in
  physics game (1 / 60) p = p'
  /\ 1 - 1.35 / 60 = 0.9775
  /\ forall (rect : Rect) (last : R) (handle : nat) (raf : option nat)
        (i : nat),
      frame_dt (last + 1000 / 60) last = 1 / 60
      /\ particlesRef
           (fst (fst (tick game rect (last + 1000 / 60) handle
                        {| particlesRef := [p]; lastTRef := last;
                           rafRef := raf |} i)))
         = [p'].
Proof.
  intros p p'.
  assert (Hstep : physics game (1 / 60) p = p').
  { unfold physics, p, p', Math_pow, g, drag, fade. simpl.
    replace (1 / 60 * 60) with 1 by lra.
    rewrite Rpower_1 by lra.
    replace (1 - 1 / 60 * 1.35) with 0.9775 by lra.
    rewrite (clamp_inside 0.9775 0 1) by lra.
    reflexivity. }
  split; [exact Hstep |]. split; [lra |].
  intros rect last handle raf i.
  assert (Hdt : frame_dt (last + 1000 / 60) last = 1 / 60).
  { unfold frame_dt.
    replace ((last + 1000 / 60 - last) / 1000) with (1 / 60) by lra.
    apply clamp_inside. lra. }
  split; [exact Hdt |].
  rewrite tick_particles. simpl particlesRef. simpl lastTRef.
  rewrite Hdt. simpl map. rewrite Hstep. simpl.
  rewrite num_gt_true by lra. reflexivity.
Qed.

(** C2.  For every particle of a burst the loop can reach and every step
    with [dt >= 0], [life] is in [[0, 1]] before and after the step, the new
    value is [clamp (life - fade * dt) 0 1], and it is no greater than the
    old one; every particle a frame keeps is the update of an earlier one
    whose [life] was no smaller. *)
Theorem life_in_unit_interval_non_increasing (kind : BurstKind) (rect : Rect)
    (s : Loop * nat) (p : Particle) (dt : R) :
  Reachable kind rect s ->
  In p (particlesRef (fst s)) ->
  0 <= dt ->
  0 <= life p <= 1
  /\ life (physics kind dt p) = clamp (life p - fade kind * dt) 0 1
  /\ 0 <= life (physics kind dt p) <= 1
  /\ life (physics kind dt p) <= life p
  /\ forall (t : R) (handle : nat),
      Forall (fun p' =>
                0 <= life p' <= 1
                /\ exists q, In q (particlesRef (fst s))
                             /\ p' = physics kind
                                       (frame_dt t (lastTRef (fst s))) q
                             /\ life p' <= life q)
             (particlesRef
                (fst (fst (tick kind rect t handle (fst s) (snd s))))).
Proof.
  intros Hr Hin Hdt.
  pose proof (reachable_life kind rect s Hr) as Hinv.
  rewrite Forall_forall in Hinv.
  pose proof (Hinv p Hin) as Hp.
  split; [lra |].
  split; [rewrite physics_life; f_equal; lra |].
  split; [apply physics_life_bounds |].
  split; [apply physics_life_le; lra |].
  intros t handle. rewrite tick_particles.
  apply Forall_forall. intros q' Hq'.
  apply filter_In in Hq'. destruct Hq' as [Hq' _].
  apply in_map_iff in Hq'. destruct Hq' as [q [Heq Hq]]. subst q'.
  split; [apply physics_life_bounds |].
  exists q. split; [exact Hq |]. split; [reflexivity |].
  apply physics_life_le.
  - pose proof (Hinv q Hq). lra.
  - apply frame_dt_bounds.
Qed.

(** C3.  Whatever the origin and the draws of the random source (each in
    [[0, 1)]), [makeParticles] returns 55 particles for "game" and 45 for
    "media"; each has [life = 1], a [size] that is the affine image of one
    draw onto the range of the style ([[4, 10]] for "game", [[3, 9]] for
    "media"), [vr] in [[-6, 6]] and [rot] in [[0, 2 pi)]. *)
Theorem makeParticles_spawn_ranges (x0 y0 : R) (i : nat) :
  unit_draws rnd ->
  length (fst (makeParticles game x0 y0 i)) = 55%nat
  /\ length (fst (makeParticles media x0 y0 i)) = 45%nat
  /\ Forall (fun p =>
               life p = 1
               /\ 4 <= size p <= 10
               /\ (exists j, size p = rnd j * (10 - 4) + 4)
               /\ -6 <= vr p <= 6
               /\ 0 <= rot p < 2 * PI)
            (fst (makeParticles game x0 y0 i))
  /\ Forall (fun p =>
               life p = 1
               /\ 3 <= size p <= 9
               /\ (exists j, size p = rnd j * (9 - 3) + 3)
               /\ -6 <= vr p <= 6
               /\ 0 <= rot p < 2 * PI)
            (fst (makeParticles media x0 y0 i)).
Proof.
  intros Hu. pose proof PI_RGT_0 as Hpi.
  split; [apply makeParticles_length |].
  split; [apply makeParticles_length |].
  split; apply makeParticles_all; intros j;
    match goal with
    | |- context [spawn ?k _ _ _] =>
        destruct (spawn_fields k x0 y0 j)
          as [_ [_ [Hl [Hs [Hr [Hw _]]]]]]
    end;
    rewrite Hl, Hs, Hr, Hw;
    unfold size_hi, size_lo, Math_PI; simpl BurstKind_eqb; cbv iota;
    destruct (Hu (j + 4)%nat) as [? ?];
    destruct (Hu (j + 5)%nat) as [? ?];
    destruct (Hu (j + 6)%nat) as [? ?];
    (split; [reflexivity |]);
    (split; [lra |]);
    (split; [exists (j + 4)%nat; reflexivity |]);
    (split; [lra | nra]).
Qed.

(** C4.  A "media" particle, after any frames, whatever the draws of the
    random source: if it is hollow, what is drawn for it has no fill of
    any sort, and as long as it is alive it is the circle stroked with line
    width 2 in one of the two colors; if it is not hollow, nothing is
    stroked, and as long as it is alive it is the circle filled in one of
    the two colors.  A dead particle draws nothing.  And every "media"
    frame does draw them so: the particles it keeps are the updated ones
    that are alive, each as hollow as it was, and after [clearRect] the
    log of the frame is, for each of them in order, the circle with
    [lineWidth 2] and a stroke if the particle is hollow and with a fill
    if it is not, in the colors the draw taken for that particle
    decides. *)
Theorem media_hollow_stroke_only :
  (forall (p : Particle) (dts : list R) (i : nat),
      let q := after_frames media dts p in
      let log := fst (draw media q i) in
      let circle := [save; set_globalAlpha (life q); beginPath;
                     arc (x q) (y q) (size q / 2) 0 (Math_PI * 2)] in
      hollow q = hollow p
      /\ if hollow p
         then ~ In fill log
              /\ (forall c, ~ In (set_fillStyle c) log)
              /\ (forall a b c d, ~ In (fillRect a b c d) log)
              /\ (if num_le (life q) 0 then log = []
                  else exists c,
                      (c = "#ff5aa5"%string \/ c = "#d10b66"%string)
                      /\ log = circle
                               ++ [set_lineWidth 2; set_strokeStyle c;
                                   stroke; restore])
         else ~ In stroke log
              /\ (forall w, ~ In (set_lineWidth w) log)
              /\ (if num_le (life q) 0 then log = []
                  else exists c,
                      (c = "#d10b66"%string \/ c = "#ff5aa5"%string)
                      /\ log = circle ++ [set_fillStyle c; fill; restore]))
  /\ (forall (rect : Rect) (t : R) (handle : nat) (st : Loop) (i : nat),
         let dt := frame_dt t (lastTRef st) in
         let r := fst (tick media rect t handle st i) in
         let kept := particlesRef (fst r) in
         kept = filter (fun p => num_gt (life p) 0)
                  (map (physics media dt) (particlesRef st))
         /\ Forall (fun q =>
                      life q > 0
                      /\ exists p, In p (particlesRef st)
                                   /\ q = physics media dt p
                                   /\ hollow q = hollow p)
                   kept
         /\ snd r
            = clearRect 0 0 (width rect) (height rect)
                :: concat
                     (map (fun qk =>
                             [save; set_globalAlpha (life (fst qk));
                              beginPath;
                              arc (x (fst qk)) (y (fst qk))
                                (size (fst qk) / 2) 0 (Math_PI * 2)]
                             ++ (if hollow (fst qk)
                                 then [set_lineWidth 2;
                                       set_strokeStyle
                                         (if num_lt (rnd (snd qk)) 0.5
                                          then "#ff5aa5"%string
                                          else "#d10b66"%string);
                                       stroke]
                                 else [set_fillStyle
                                         (if num_lt (rnd (snd qk)) 0.5
                                          then "#d10b66"%string
                                          else "#ff5aa5"%string);
                                       fill])
                             ++ [restore])
                          (combine kept (seq i (length kept))))).
Proof.
  split.
  - intros p dts i q log circle.
    destruct (after_frames_fixed_fields media dts p) as [_ [Hh _]].
    fold q in Hh. split; [exact Hh |].
    assert (Hlog : log = fst (draw media q i)) by reflexivity.
    unfold num_le in *. destruct (Rle_dec (life q) 0) as [Hd | Ha].
    + rewrite draw_dead in Hlog by exact Hd. simpl in Hlog. rewrite Hlog.
      destruct (hollow p); repeat split; auto.
    + rewrite draw_circle in Hlog by (lra || discriminate).
      rewrite Hh in Hlog. simpl in Hlog.
      destruct (hollow p); rewrite Hlog;
        destruct (num_lt (rnd i) 0.5); simpl;
        repeat split;
        try (intros; intuition discriminate);
        eexists; (split; [| reflexivity]); auto.
  - intros rect t handle st i dt r kept.
    assert (Hkept : kept = filter (fun p => num_gt (life p) 0)
                             (map (physics media dt) (particlesRef st)))
      by (apply tick_particles).
    split; [exact Hkept |]. split.
    + rewrite Hkept. apply Forall_forall. intros q Hq.
      apply filter_In in Hq. destruct Hq as [Hq Hal].
      apply num_gt_iff in Hal. split; [exact Hal |].
      apply in_map_iff in Hq. destruct Hq as [p [Hp Hin]].
      exists p. subst q. repeat split; assumption || reflexivity.
    + unfold r. rewrite tick_log. f_equal. fold dt.
      rewrite (for_particles_media_log dt (particlesRef st) i).
      cbv zeta. rewrite <- Hkept. reflexivity.
Qed.

(** C5, as the code has it.  A call of [makeParticles] completes normally
    for every [BurstKind], "none" included: 55 particles for "game", 45 for
    any other kind.  A style outside [BurstKind] is excluded by the type,
    and "none" is turned away before the call: activation with "none"
    leaves the loop as it was and draws nothing from the random source. *)
Theorem makeParticles_never_throws (kind : BurstKind) (x0 y0 : R) (i : nat) :
  (exists (ps : list Particle) (j : nat),
      call_makeParticles kind x0 y0 i = Normal (ps, j)
      /\ length ps = (match kind with game => 55 | _ => 45 end)%nat)
  /\ forall (active : bool) (canvas : option Rect) (now : R) (handle : nat)
        (st : Loop),
      activate active none canvas now handle st i = (st, i).
Proof.
  split.
  - unfold call_makeParticles.
    pose proof (makeParticles_length kind x0 y0 i) as Hlen.
    destruct (makeParticles kind x0 y0 i) as [ps j]. simpl in Hlen.
    exists ps, j. split; [reflexivity |].
    rewrite Hlen. destruct kind; reflexivity.
  - intros active canvas now handle st. unfold activate.
    rewrite orb_true_r. reflexivity.
Qed.

(** C6.  In every frame the burst left behind is exactly the updated
    particles whose [life] is greater than [0], in order; it is no longer
    than the burst before; the log after [clearRect] is made of what is
    drawn for each updated particle in turn, and something is drawn for a
    particle exactly when its [life] is greater than [0]. *)
Theorem tick_keeps_exactly_the_living (kind : BurstKind) (rect : Rect) (t : R)
    (handle : nat) (st : Loop) (i : nat) :
  let dt := frame_dt t (lastTRef st) in
  let r := fst (tick kind rect t handle st i) in
  particlesRef (fst r)
  = filter (fun p => num_gt (life p) 0)
      (map (physics kind dt) (particlesRef st))
  /\ (forall p', In p' (particlesRef (fst r))
                 <-> (exists p, In p (particlesRef st)
                                /\ p' = physics kind dt p)
                     /\ life p' > 0)
  /\ Forall (fun p' => life p' > 0) (particlesRef (fst r))
  /\ (length (particlesRef (fst r)) <= length (particlesRef st))%nat
  /\ (exists js : list nat,
         length js = length (particlesRef st)
         /\ snd r
            = clearRect 0 0 (width rect) (height rect)
                :: concat (map (fun pj => fst (draw kind
                                                 (physics kind dt (fst pj))
                                                 (snd pj)))
                               (combine (particlesRef st) js)))
  /\ (forall (p : Particle) (j : nat),
         fst (draw kind p j) <> [] <-> life p > 0).
Proof.
  intros dt r. unfold r.
  pose proof (tick_particles kind rect t handle st i) as Ht. fold dt in Ht.
  assert (Hiff : forall p', In p' (particlesRef
                                     (fst (fst (tick kind rect t handle st i))))
                            <-> (exists p, In p (particlesRef st)
                                           /\ p' = physics kind dt p)
                                /\ life p' > 0).
  { intros p'. rewrite Ht, filter_In, in_map_iff, num_gt_iff.
    split; intros [[p Hp] Hl]; (split; [exists p | exact Hl]);
      destruct Hp; auto. }
  split; [exact Ht |]. split; [exact Hiff |].
  split; [apply Forall_forall; intros p' Hp'; now apply Hiff in Hp' |].
  split.
  { rewrite Ht. eapply Nat.le_trans; [apply filter_length_le |].
    now rewrite length_map. }
  split.
  { destruct (for_particles_log kind dt (particlesRef st) i)
      as [js [Hlen Hlog]].
    exists js. split; [exact Hlen |].
    rewrite tick_log. fold dt. now rewrite Hlog. }
  intros p j. destruct (Rle_dec (life p) 0) as [Hd | Ha].
  - rewrite draw_dead by exact Hd. simpl. split; [congruence | lra].
  - split; [lra |]. intros _. destruct kind.
    + rewrite draw_circle by (lra || discriminate). discriminate.
    + rewrite draw_game by lra. discriminate.
    + rewrite draw_circle by (lra || discriminate). discriminate.
Qed.

(** C7.  The elapsed time of a frame is the time since the last frame in
    seconds, clamped into [[0, 0.033]]: [0] when the timestamp is not past
    the last one, [(t - last) / 1000] up to 33 ms, [0.033] beyond; it is
    what [tick] steps the particles by, and [tick] records the timestamp.
    In a burst the loop can reach, a frame whose elapsed time is clamped
    to [0] leaves every particle as it was, position, velocity, rotation
    and [life] included, and keeps them all; its log is [clearRect] and
    then what is drawn for each particle as it was, and the opacities it
    writes are the [life] values of the particles, so [1] for each
    particle with [life = 1].  A first frame no later than the activation
    keeps every particle the factory made and writes opacity [1] for each
    of them. *)
Theorem zero_dt_frame_is_identity (kind : BurstKind) (rect : Rect)
    (s : Loop * nat) (t : R) (handle : nat) :
  Reachable kind rect s ->
  frame_dt t (lastTRef (fst s)) = 0 ->
  let r := fst (tick kind rect t handle (fst s) (snd s)) in
  (forall t' last,
      0 <= frame_dt t' last <= 0.033
      /\ (t' <= last -> frame_dt t' last = 0)
      /\ (0 <= t' - last <= 33 -> frame_dt t' last = (t' - last) / 1000)
      /\ (33 <= t' - last -> frame_dt t' last = 0.033))
  /\ (forall t' handle' st' i',
         particlesRef (fst (fst (tick kind rect t' handle' st' i')))
         = filter (fun p => num_gt (life p) 0)
             (map (physics kind (frame_dt t' (lastTRef st')))
                  (particlesRef st'))
         /\ lastTRef (fst (fst (tick kind rect t' handle' st' i'))) = t')
  /\ Forall (fun p => physics kind 0 p = p) (particlesRef (fst s))
  /\ particlesRef (fst r) = particlesRef (fst s)
  /\ (exists js : list nat,
         length js = length (particlesRef (fst s))
         /\ snd r
            = clearRect 0 0 (width rect) (height rect)
                :: concat (map (fun pj => fst (draw kind (fst pj) (snd pj)))
                               (combine (particlesRef (fst s)) js)))
  /\ alphas (snd r) = map life (particlesRef (fst s))
  /\ Forall (fun p =>
               life p = 1 ->
               forall j,
                 In (set_globalAlpha 1)
                    (fst (draw kind (physics kind 0 p) j)))
            (particlesRef (fst s))
  /\ (forall now handle0 st0 i0 t0 handle1,
         t0 <= now ->
         let s0 := activate true kind (Some rect) now handle0 st0 i0 in
         let r0 := fst (tick kind rect t0 handle1 (fst s0) (snd s0)) in
         particlesRef (fst r0) = particlesRef (fst s0)
         /\ length (particlesRef (fst r0)) = particle_count kind
         /\ alphas (snd r0) = repeat 1 (particle_count kind)).
Proof.
  intros Hr Hdt r.
  assert (Hk : kind <> none).
  { intros Hn. subst kind. clear - Hr.
    induction Hr as [now handle st0 i Hk | st i t handle H IH];
      [now apply Hk | exact IH]. }
  pose proof (reachable_life kind rect s Hr) as Hinv.
  destruct (tick_zero_dt kind rect t handle (fst s) (snd s) Hinv Hdt)
    as [Hkeep [Hlog Halpha]].
  rewrite Forall_forall in Hinv.
  assert (Hid : forall p, In p (particlesRef (fst s)) -> physics kind 0 p = p).
  { intros p Hp. apply physics_zero. pose proof (Hinv p Hp). lra. }
  split; [intros; apply frame_dt_cases |].
  split; [intros; split; [apply tick_particles | apply tick_lastT] |].
  split; [apply Forall_forall; exact Hid |].
  split; [exact Hkeep |]. split; [exact Hlog |]. split; [exact Halpha |].
  split.
  - apply Forall_forall. intros p Hp Hl j. rewrite (Hid p Hp).
    destruct kind.
    + rewrite draw_circle by (lra || discriminate). rewrite Hl.
      simpl. auto.
    + rewrite draw_game by lra. rewrite Hl. simpl. auto 6.
    + rewrite draw_circle by (lra || discriminate). rewrite Hl.
      simpl. auto.
  - intros now handle0 st0 i0 t0 handle1 Ht0 s0 r0.
    assert (Hr0 : Reachable kind rect s0) by (now apply reach_activate).
    assert (Hs0 : fst s0
                  = {| particlesRef :=
                         fst (makeParticles kind (width rect / 2)
                                (height rect / 2) i0);
                       lastTRef := now;
                       rafRef := Some handle0 |})
      by (apply activate_burst; exact Hk).
    assert (Hdt0 : frame_dt t0 (lastTRef (fst s0)) = 0).
    { rewrite Hs0. simpl. apply frame_dt_cases. exact Ht0. }
    destruct (tick_zero_dt kind rect t0 handle1 (fst s0) (snd s0)
                (reachable_life kind rect s0 Hr0) Hdt0)
      as [Hkeep0 [_ Halpha0]].
    fold r0 in Hkeep0, Halpha0.
    assert (Hlen : length (particlesRef (fst s0)) = particle_count kind)
      by (rewrite Hs0; apply makeParticles_length).
    split; [exact Hkeep0 |]. split; [now rewrite Hkeep0 |].
    rewrite Halpha0, <- Hlen.
    assert (Hone : Forall (fun p => life p = 1) (particlesRef (fst s0))).
    { rewrite Hs0. simpl. apply makeParticles_all. intros j.
      now destruct (spawn_fields kind (width rect / 2) (height rect / 2) j)
        as [_ [_ [Hl _]]]. }
    clear - Hone. induction Hone as [| p l Hp _ IH]; [reflexivity |].
    simpl. now rewrite Hp, IH.
Qed.

(** C8.  A step leaves [size], [hollow] and [vr] of a particle as they
    were, over one frame and over any number of frames, and every particle
    a frame keeps is the update of an earlier one with these three fields
    unchanged. *)
Theorem physics_keeps_size_hollow_vr (kind : BurstKind) :
  (forall (dt : R) (p : Particle),
      size (physics kind dt p) = size p
      /\ hollow (physics kind dt p) = hollow p
      /\ vr (physics kind dt p) = vr p)
  /\ (forall (dts : list R) (p : Particle),
         size (after_frames kind dts p) = size p
         /\ hollow (after_frames kind dts p) = hollow p
         /\ vr (after_frames kind dts p) = vr p)
  /\ (forall (rect : Rect) (t : R) (handle : nat) (st : Loop) (i : nat),
         Forall (fun p' =>
                   exists p, In p (particlesRef st)
                             /\ p' = physics kind (frame_dt t (lastTRef st)) p
                             /\ size p' = size p
                             /\ hollow p' = hollow p
                             /\ vr p' = vr p)
                (particlesRef (fst (fst (tick kind rect t handle st i))))).
Proof.
  split; [intros dt p; repeat split; reflexivity |].
  split; [intros dts p; apply after_frames_fixed_fields |].
  intros rect t handle st i. rewrite tick_particles.
  apply Forall_forall. intros q Hq.
  apply filter_In in Hq. destruct Hq as [Hq _].
  apply in_map_iff in Hq. destruct Hq as [p [Hp Hin]].
  exists p. subst q. repeat split; assumption || reflexivity.
Qed.

(** C10.  Whatever the kind and the origin, every particle
    [makeParticles] returns starts at the origin. *)
Theorem makeParticles_at_origin (kind : BurstKind) (x0 y0 : R) (i : nat) :
  Forall (fun p => x p = x0 /\ y p = y0) (fst (makeParticles kind x0 y0 i)).
Proof.
  apply makeParticles_all. intros j.
  destruct (spawn_fields kind x0 y0 j) as [Hx [Hy _]]. auto.
Qed.

(** ** Frame rate

    The horizontal velocity after a run of frames depends on the total
    elapsed time alone; the position does not. *)

Lemma vx_after_frames (kind : BurstKind) (dts : list R) (p : Particle) :
  vx (after_frames kind dts p)
  = vx p * Math_pow (drag kind) (total_time dts * 60).
Proof.
  unfold after_frames, Math_pow. revert p.
  induction dts as [| dt dts IH]; intros p; simpl.
  - replace (0 * 60) with 0 by lra.
    rewrite (Rpower_O _ (drag_pos kind)). lra.
  - rewrite IH. simpl. unfold Math_pow.
    replace ((dt + total_time dts) * 60)
      with (dt * 60 + total_time dts * 60) by lra.
    rewrite Rpower_plus. lra.
Qed.

(** One frame of [1/60] s and two frames of [1/120] s take the same time
    and leave a "game" particle of [vx = 200] more than a tenth of a unit
    apart. *)
Lemma x_depends_on_frame_split :
  let p := {| x := 100; y := 100; vx := 200; vy := -300; life := 1;
              size := 4; rot := 0; vr := 0; hollow := false |} in
  total_time [1 / 120; 1 / 120] = total_time [1 / 60]
  /\ x (after_frames game [1 / 120; 1 / 120] p)
     - x (after_frames game [1 / 60] p) > 0.1.
Proof.
  intros p. split; [unfold total_time; simpl; lra |].
  unfold after_frames, p, physics, Math_pow, drag. simpl.
  replace (1 / 60 * 60) with 1 by lra.
  rewrite Rpower_1 by lra.
  set (e := Rpower 0.86 (1 / 120 * 60)).
  assert (He : e * e = 0.86).
  { unfold e. rewrite <- Rpower_plus.
    replace (1 / 120 * 60 + 1 / 120 * 60) with 1 by lra.
    apply Rpower_1. lra. }
  assert (Hpos : 0 < e) by (unfold e, Rpower; apply exp_pos).
  nra.
Qed.

(** * Further properties *)

(** ** [clamp] and [rand] *)

(** X1.  With the bounds in order, [clamp] lands in [[a, b]], leaves what is
    already there alone, is idempotent and is monotone in its argument. *)
Theorem clamp_laws (a b n m : R) :
  a <= b ->
  a <= clamp n a b <= b
  /\ (a <= n <= b -> clamp n a b = n)
  /\ clamp (clamp n a b) a b = clamp n a b
  /\ (n <= m -> clamp n a b <= clamp m a b).
Proof.
  intros Hab.
  pose proof (clamp_bounds n a b Hab) as Hb.
  split; [exact Hb |].
  split; [apply clamp_inside |].
  split; [apply clamp_inside; exact Hb |].
  intros Hnm. unfold clamp, Math_max, Math_min.
  apply Rle_max_compat_l, Rle_min_compat_l. exact Hnm.
Qed.

(** X2.  With the bounds the wrong way round, [clamp] returns its lower bound
    [a], whatever the number. *)
Theorem clamp_inverted_bounds (a b n : R) : b < a -> clamp n a b = a.
Proof.
  intros Hba. unfold clamp, Math_max, Math_min.
  apply Rmax_left. pose proof (Rmin_l b n). lra.
Qed.

(** X3.  [rand(lo, hi)] makes one call of [Math.random] and, for
    [lo <= hi], returns a number of [[lo, hi]]. *)
Theorem rand_in_range (lo hi : R) (i : nat) :
  unit_draws rnd ->
  lo <= hi ->
  lo <= fst (rand lo hi i) <= hi
  /\ snd (rand lo hi i) = S i.
Proof.
  intros Hu Hlh. destruct (Hu i) as [H0 H1].
  cbv [rand bind ret Math_random fst snd].
  split; [nra | reflexivity].
Qed.

(** ** The factory, draw by draw *)

Lemma spawn_cursor (kind : BurstKind) (x0 y0 : R) (i : nat) :
  snd (spawn kind x0 y0 i) = (i + draws_per kind)%nat.
Proof.
  unfold draws_per.
  destruct kind; cbv [spawn bind rand ret Math_random BurstKind_eqb snd];
    lia.
Qed.

Lemma push_loop_spawns (kind : BurstKind) (x0 y0 : R) (n : nat) :
  forall (out : list Particle) (i : nat),
    push_loop kind x0 y0 n out i
    = (out ++ map (fun k => fst (spawn kind x0 y0
                                   (i + draws_per kind * k)%nat))
                  (seq 0 n),
       (i + draws_per kind * n)%nat).
Proof.
  induction n as [| n IH]; intros out i.
  - simpl. unfold ret. rewrite app_nil_r. f_equal. lia.
  - simpl push_loop. unfold bind at 1.
    pose proof (spawn_cursor kind x0 y0 i) as Hc.
    destruct (spawn kind x0 y0 i) as [p j] eqn:Hs. simpl in Hc. subst j.
    rewrite IH. f_equal; [| lia].
    rewrite <- app_assoc. f_equal. simpl.
    replace (i + draws_per kind * 0)%nat with i by lia.
    rewrite Hs. simpl. f_equal.
    rewrite <- seq_shift, map_map.
    apply map_ext. intros k. do 2 f_equal. lia.
Qed.

(** X4.  [makeParticles] is the list of the particles spawned from the cursors
    [i], [i + c], [i + 2c], ...: each particle is made of its own [c]
    consecutive draws, [c] being 8 for "media" and 7 otherwise, and the
    call uses up 385 draws for "game", 360 for "media" and 315 for
    "none". *)
Theorem makeParticles_spawns (kind : BurstKind) (x0 y0 : R) (i : nat) :
  makeParticles kind x0 y0 i
  = (map (fun k => fst (spawn kind x0 y0 (i + draws_per kind * k)%nat))
         (seq 0 (particle_count kind)),
     (i + match kind with
          | game => 385
          | media => 360
          | none => 315
          end)%nat).
Proof.
  unfold makeParticles. rewrite push_loop_spawns. simpl. f_equal.
  destruct kind; reflexivity.
Qed.

(** X5.  A "game" particle, and a "none" one, is never hollow; the [k]-th
    "media" particle is hollow exactly when the eighth draw of its block
    is below [0.35]. *)
Theorem hollow_rule (x0 y0 : R) (i : nat) :
  Forall (fun p => hollow p = false) (fst (makeParticles game x0 y0 i))
  /\ Forall (fun p => hollow p = false) (fst (makeParticles none x0 y0 i))
  /\ map hollow (fst (makeParticles media x0 y0 i))
     = map (fun k => num_lt (rnd (i + 8 * k + 7)%nat) 0.35) (seq 0 45).
Proof.
  split; [| split].
  - apply makeParticles_all. intros j.
    destruct (spawn_fields game x0 y0 j) as [_ [_ [_ [_ [_ [_ Hh]]]]]].
    exact Hh.
  - apply makeParticles_all. intros j.
    destruct (spawn_fields none x0 y0 j) as [_ [_ [_ [_ [_ [_ Hh]]]]]].
    exact Hh.
  - unfold makeParticles. rewrite push_loop_spawns. unfold fst at 1.
    rewrite app_nil_l, map_map.
    apply map_ext. intros k.
    destruct (spawn_fields media x0 y0 (i + draws_per media * k)%nat)
      as [_ [_ [_ [_ [_ [_ Hh]]]]]].
    rewrite Hh. reflexivity.
Qed.

(** The velocity one iteration gives its particle. *)
Lemma spawn_velocity (kind : BurstKind) (x0 y0 : R) (i : nat) :
  let p := fst (spawn kind x0 y0 i) in
  let angle := rnd i * (- Math_PI * 0.1 - - Math_PI * 0.9)
               + - Math_PI * 0.9 in
  let speed := rnd (i + 1)%nat * (speed_hi kind - speed_lo kind)
               + speed_lo kind in
  vx p = cos angle * speed + (rnd (i + 2)%nat * (60 - -60) + -60)
  /\ vy p = sin angle * speed + (rnd (i + 3)%nat * (40 - -40) + -40).
Proof.
  replace (i + 1)%nat with (S i) by lia.
  replace (i + 2)%nat with (S (S i)) by lia.
  replace (i + 3)%nat with (S (S (S i))) by lia.
  unfold speed_hi, speed_lo.
  destruct kind; cbv [spawn bind rand ret Math_random BurstKind_eqb fst];
    split; reflexivity.
Qed.

Lemma sin_three_tenths : 2 / 7 <= sin (3 / 10).
Proof.
  assert (Hpi : 3 < PI) by (pose proof PI2_3_2; lra).
  destruct (SIN (3 / 10)) as [H _]; try lra.
  eapply Rle_trans; [| exact H].
  unfold sin_lb, sin_approx, sin_term. simpl. lra.
Qed.

(** Every emission angle points upward by a margin: its sine is at most
    [-2/7]. *)
Lemma sin_emission_cone (u : R) :
  0 <= u <= 1 ->
  sin (u * (- Math_PI * 0.1 - - Math_PI * 0.9) + - Math_PI * 0.9) <= - (2 / 7).
Proof.
  intros Hu. unfold Math_PI.
  assert (Hpi : 3 < PI) by (pose proof PI2_3_2; lra).
  set (th := PI * 0.9 - u * (PI * 0.8)).
  replace (u * (- PI * 0.1 - - PI * 0.9) + - PI * 0.9) with (- th)
    by (unfold th; lra).
  rewrite sin_neg.
  assert (Hth : PI * 0.1 <= th <= PI * 0.9) by (unfold th; nra).
  pose proof sin_three_tenths as H3.
  destruct (Rle_dec th (PI / 2)) as [Hle | Hgt].
  - assert (sin (3 / 10) <= sin th) by (apply sin_incr_1; lra).
    lra.
  - rewrite <- (sin_PI_x th).
    assert (sin (3 / 10) <= sin (PI - th)) by (apply sin_incr_1; lra).
    lra.
Qed.

Lemma spawn_velocity_range (kind : BurstKind) (x0 y0 : R) (i : nat) :
  unit_draws rnd ->
  let p := fst (spawn kind x0 y0 i) in
  - (speed_hi kind + 60) <= vx p <= speed_hi kind + 60
  /\ - (speed_hi kind + 40) <= vy p < 40 - 2 / 7 * speed_lo kind.
Proof.
  intros Hu. destruct (spawn_velocity kind x0 y0 i) as [Hvx Hvy].
  cbv zeta. rewrite Hvx, Hvy.
  destruct (Hu i) as [? ?].
  destruct (Hu (i + 1)%nat) as [? ?].
  destruct (Hu (i + 2)%nat) as [? ?].
  destruct (Hu (i + 3)%nat) as [? ?].
  pose proof (sin_emission_cone (rnd i)) as Hs.
  set (angle := rnd i * (- Math_PI * 0.1 - - Math_PI * 0.9)
                + - Math_PI * 0.9) in *.
  pose proof (COS_bound angle) as [? ?].
  pose proof (SIN_bound angle) as [? ?].
  assert (Hs' : sin angle <= - (2 / 7)) by (apply Hs; lra).
  unfold speed_hi, speed_lo.
  destruct (BurstKind_eqb kind game); repeat split; nra.
Qed.

(** X6.  Whatever the draws, a "game" particle starts with [|vx| <= 420] and
    [vy] in [[-400, 0)]: it moves upward; a "media" particle starts with
    [|vx| <= 340] and [vy] in [[-320, 40)]. *)
Theorem spawn_velocity_bounds (x0 y0 : R) (i : nat) :
  unit_draws rnd ->
  Forall (fun p => Rabs (vx p) <= 420 /\ -400 <= vy p < 0)
         (fst (makeParticles game x0 y0 i))
  /\ Forall (fun p => Rabs (vx p) <= 340 /\ -320 <= vy p < 40)
            (fst (makeParticles media x0 y0 i)).
Proof.
  intros Hu.
  split; apply makeParticles_all; intros j;
    match goal with
    | |- context [spawn ?k _ _ _] =>
        pose proof (spawn_velocity_range k x0 y0 j Hu) as [Hvx Hvy]
    end;
    unfold speed_hi, speed_lo in *; simpl BurstKind_eqb in *;
    cbv iota in *;
    (split; [apply Rabs_le; lra | lra]).
Qed.

Lemma clamp_nonpos (n : R) : n <= 0 -> clamp n 0 1 = 0.
Proof.
  intros Hn. unfold clamp, Math_max, Math_min.
  rewrite Rmin_right by lra. apply Rmax_left. exact Hn.
Qed.

(** ** Motion *)

Lemma drag_lt_1 (kind : BurstKind) : drag kind < 1.
Proof. unfold drag. destruct (BurstKind_eqb kind game); lra. Qed.

Lemma g_pos (kind : BurstKind) : 0 < g kind.
Proof. unfold g. destruct (BurstKind_eqb kind game); lra. Qed.

Lemma terminal_pos (kind : BurstKind) : 0 < terminal kind.
Proof.
  unfold terminal. pose proof (g_pos kind). pose proof (drag_lt_1 kind).
  apply Rdiv_lt_0_compat; lra.
Qed.

Lemma ln_le_pred (d : R) : 0 < d -> ln d <= d - 1.
Proof.
  intros Hd. destruct (Rle_dec (ln d) (d - 1)) as [H | H]; [exact H |].
  exfalso. apply Rnot_le_lt in H. apply exp_increasing in H.
  rewrite exp_ln in H by exact Hd.
  pose proof (exp_ineq1_le (d - 1)). lra.
Qed.

(** The factor drag applies over [dt >= 0]: at most [1], and small enough
    to cancel the gain [1 + 60 (1 - drag) dt]. *)
Lemma drag_factor (kind : BurstKind) (dt : R) :
  0 <= dt ->
  0 < Math_pow (drag kind) (dt * 60) <= 1
  /\ (1 + 60 * (1 - drag kind) * dt) * Math_pow (drag kind) (dt * 60) <= 1.
Proof.
  intros Hdt. unfold Math_pow, Rpower.
  pose proof (drag_pos kind) as Hd0. pose proof (drag_lt_1 kind) as Hd1.
  pose proof (ln_le_pred (drag kind) Hd0) as Hln.
  set (u := 60 * (1 - drag kind) * dt).
  assert (Hu : 0 <= u) by (unfold u; nra).
  assert (Hle : exp (dt * 60 * ln (drag kind)) <= exp (- u)).
  { destruct (Req_dec (dt * 60 * ln (drag kind)) (- u)) as [He | Hne].
    - rewrite He. lra.
    - left. apply exp_increasing. unfold u in *. nra. }
  pose proof (exp_pos (dt * 60 * ln (drag kind))) as Hpos.
  pose proof (exp_ineq1_le u) as H1.
  assert (Hinv : exp u * exp (- u) = 1).
  { rewrite <- exp_plus. replace (u + - u) with 0 by lra. apply exp_0. }
  pose proof (exp_pos (- u)) as Hpos'.
  assert (Hone : exp (- u) <= 1) by nra.
  split; [split; [exact Hpos | lra] |].
  apply Rle_trans with ((1 + u) * exp (- u)); [| nra].
  apply Rmult_le_compat_l; lra.
Qed.

(** One step keeps a particle inside velocity bounds that hold before it,
    and moves it by at most those bounds times [dt]. *)
Lemma physics_bounds (kind : BurstKind) (dt B M U : R) (p : Particle) :
  0 <= dt -> 0 <= M -> terminal kind <= U ->
  - B <= vx p <= B -> - M <= vy p <= U ->
  let q := physics kind dt p in
  - B <= vx q <= B /\ - M <= vy q <= U
  /\ - (B * dt) <= x q - x p <= B * dt
  /\ - (M * dt) <= y q - y p <= U * dt.
Proof.
  intros Hdt HM HU Hvx Hvy.
  destruct (drag_factor kind dt Hdt) as [[He0 He1] Hk].
  pose proof (terminal_pos kind) as Ht.
  pose proof (g_pos kind) as Hg. pose proof (drag_lt_1 kind) as Hd1.
  assert (Hga : g kind <= U * (60 * (1 - drag kind))).
  { unfold terminal in HU.
    apply Rmult_le_compat_r with (r := 60 * (1 - drag kind)) in HU;
      [| lra].
    unfold Rdiv in HU. rewrite Rmult_assoc, Rinv_l in HU by lra. lra. }
  cbv zeta. unfold physics. simpl.
  set (e := Math_pow (drag kind) (dt * 60)) in *.
  assert (Hx : - B <= vx p * e <= B) by (split; nra).
  assert (Hyu : (vy p + g kind * dt) * e <= U).
  { assert (Hn : vy p + g kind * dt
                 <= U * (1 + 60 * (1 - drag kind) * dt)) by nra.
    apply Rle_trans with (U * (1 + 60 * (1 - drag kind) * dt) * e).
    - apply Rmult_le_compat_r; lra.
    - rewrite Rmult_assoc.
      assert (0 < U) by lra. nra. }
  assert (Hyl : - M <= (vy p + g kind * dt) * e).
  { destruct (Rle_dec 0 (vy p + g kind * dt)); nra. }
  repeat split; try lra; nra.
Qed.

Lemma after_frames_cons (kind : BurstKind) (dt : R) (dts : list R)
    (p : Particle) :
  after_frames kind (dt :: dts) p = after_frames kind dts (physics kind dt p).
Proof. reflexivity. Qed.

Lemma total_time_nonneg (dts : list R) :
  Forall (fun dt => 0 <= dt) dts -> 0 <= total_time dts.
Proof.
  induction 1 as [| dt dts Hdt _ IH]; unfold total_time in *; simpl; lra.
Qed.

Lemma after_frames_bounds (kind : BurstKind) (B M U : R) (dts : list R) :
  Forall (fun dt => 0 <= dt) dts ->
  0 <= M -> terminal kind <= U ->
  forall p : Particle,
    - B <= vx p <= B -> - M <= vy p <= U ->
    let q := after_frames kind dts p in
    - B <= vx q <= B /\ - M <= vy q <= U
    /\ - (B * total_time dts) <= x q - x p <= B * total_time dts
    /\ - (M * total_time dts) <= y q - y p <= U * total_time dts.
Proof.
  intros Hdts HM HU.
  induction Hdts as [| dt dts Hdt Hdts IH]; intros p Hvx Hvy.
  - simpl. repeat split; lra.
  - cbv zeta. rewrite after_frames_cons.
    destruct (physics_bounds kind dt B M U p Hdt HM HU Hvx Hvy)
      as [Hvx1 [Hvy1 [Hx1 Hy1]]].
    destruct (IH (physics kind dt p) Hvx1 Hvy1) as [Hvx2 [Hvy2 [Hx2 Hy2]]].
    change (total_time (dt :: dts)) with (dt + total_time dts).
    repeat split; lra.
Qed.

(** X7.  Drag never speeds a particle up sideways and never turns it round:
    after frames of non-negative length [vx] keeps its sign and is no
    larger in size, and [x] has moved by at most [|vx|] times the elapsed
    time. *)
Theorem horizontal_motion_decays (kind : BurstKind) (dts : list R)
    (p : Particle) :
  Forall (fun dt => 0 <= dt) dts ->
  let q := after_frames kind dts p in
  Rabs (vx q) <= Rabs (vx p)
  /\ 0 <= vx p * vx q
  /\ Rabs (x q - x p) <= Rabs (vx p) * total_time dts.
Proof.
  intros Hdts.
  pose proof (terminal_pos kind) as Ht.
  pose proof (Rabs_pos (vy p)) as Hay.
  assert (Hvx : - Rabs (vx p) <= vx p <= Rabs (vx p)).
  { split; [pose proof (Rle_abs (- vx p)) as H; rewrite Rabs_Ropp in H; lra
           | apply Rle_abs]. }
  assert (Hvy : - Rabs (vy p) <= vy p <= Rabs (vy p) + terminal kind).
  { split; [pose proof (Rle_abs (- vy p)) as H; rewrite Rabs_Ropp in H; lra
           | pose proof (Rle_abs (vy p)); lra]. }
  destruct (after_frames_bounds kind (Rabs (vx p)) (Rabs (vy p))
              (Rabs (vy p) + terminal kind) dts Hdts Hay
              ltac:(lra) p Hvx Hvy) as [Hq [_ [Hx _]]].
  cbv zeta. split; [apply Rabs_le; lra |]. split; [| apply Rabs_le; lra].
  rewrite vx_after_frames. unfold Math_pow, Rpower.
  pose proof (exp_pos (total_time dts * 60 * ln (drag kind))).
  nra.
Qed.

(** X8.  Falling is capped: a particle no faster downward than the terminal
    speed [g / (60 (1 - drag))] stays so after any frames of non-negative
    length; the speed is below 62 for "game" and below 59 for "media". *)
Theorem falling_speed_capped (kind : BurstKind) (dts : list R)
    (p : Particle) :
  Forall (fun dt => 0 <= dt) dts ->
  vy p <= terminal kind ->
  vy (after_frames kind dts p) <= terminal kind
  /\ terminal game < 62 /\ terminal media < 59.
Proof.
  intros Hdts Hvy.
  pose proof (Rabs_pos (vy p)) as Hay.
  assert (Hvy' : - Rabs (vy p) <= vy p <= terminal kind).
  { split; [pose proof (Rle_abs (- vy p)) as H; rewrite Rabs_Ropp in H; lra
           | exact Hvy]. }
  assert (Hvx : - Rabs (vx p) <= vx p <= Rabs (vx p)).
  { split; [pose proof (Rle_abs (- vx p)) as H; rewrite Rabs_Ropp in H; lra
           | apply Rle_abs]. }
  destruct (after_frames_bounds kind (Rabs (vx p)) (Rabs (vy p))
              (terminal kind) dts Hdts Hay ltac:(lra) p Hvx Hvy')
    as [_ [Hq _]].
  split; [lra |].
  unfold terminal, g, drag. simpl. split; lra.
Qed.

(** ** Fading, spinning and culling over a run of frames *)

Lemma rot_after_frames (kind : BurstKind) (dts : list R) (p : Particle) :
  rot (after_frames kind dts p) = rot p + vr p * total_time dts.
Proof.
  revert p. induction dts as [| dt dts IH]; intros p.
  - unfold total_time. simpl. lra.
  - rewrite after_frames_cons, IH.
    change (total_time (dt :: dts)) with (dt + total_time dts).
    simpl. lra.
Qed.

Lemma life_after_frames (kind : BurstKind) (dts : list R) (p : Particle) :
  Forall (fun dt => 0 <= dt) dts ->
  0 <= life p <= 1 ->
  life (after_frames kind dts p)
  = Rmax 0 (life p - fade kind * total_time dts).
Proof.
  intros Hdts. revert p.
  induction Hdts as [| dt dts Hdt Hdts IH]; intros p Hl.
  - unfold total_time. simpl. rewrite Rmax_right; lra.
  - rewrite after_frames_cons, IH by apply physics_life_bounds.
    change (total_time (dt :: dts)) with (dt + total_time dts).
    rewrite physics_life. unfold clamp, Math_max, Math_min.
    pose proof (fade_pos kind) as Hf.
    pose proof (total_time_nonneg dts Hdts) as Ht.
    rewrite (Rmin_right 1 (life p - dt * fade kind)) by nra.
    destruct (Rle_dec 0 (life p - dt * fade kind)) as [Hpos | Hneg].
    + rewrite (Rmax_right 0 (life p - dt * fade kind)) by exact Hpos.
      f_equal. lra.
    + rewrite (Rmax_left 0 (life p - dt * fade kind)) by lra.
      rewrite !Rmax_left by nra. reflexivity.
Qed.

(** X9.  The rotation after any frames is the start plus [vr] times the
    elapsed time and the sideways velocity is the start times
    [drag^(60 * elapsed)]: two runs of frames that take the same time
    leave the same [rot] and [vx], however the time is split. *)
Theorem spin_and_drag_by_elapsed_time (kind : BurstKind) (dts : list R)
    (p : Particle) :
  rot (after_frames kind dts p) = rot p + vr p * total_time dts
  /\ vx (after_frames kind dts p)
     = vx p * Math_pow (drag kind) (total_time dts * 60)
  /\ forall dts' : list R,
      total_time dts' = total_time dts ->
      rot (after_frames kind dts' p) = rot (after_frames kind dts p)
      /\ vx (after_frames kind dts' p) = vx (after_frames kind dts p).
Proof.
  split; [apply rot_after_frames |]. split; [apply vx_after_frames |].
  intros dts' Ht. rewrite !rot_after_frames, !vx_after_frames, Ht.
  split; reflexivity.
Qed.

(** X10.  For a particle with [life] in [[0, 1]], [life] after frames of
    non-negative length is what is left after fading at the rate of the
    kind for the elapsed time, and [0] once nothing is left; the particle
    is alive exactly while [fade] times the elapsed time is below the
    [life] it started with. *)
Theorem fade_by_elapsed_time (kind : BurstKind) (dts : list R)
    (p : Particle) :
  Forall (fun dt => 0 <= dt) dts ->
  0 <= life p <= 1 ->
  life (after_frames kind dts p)
  = Rmax 0 (life p - fade kind * total_time dts)
  /\ (life (after_frames kind dts p) > 0
      <-> fade kind * total_time dts < life p).
Proof.
  intros Hdts Hl. rewrite life_after_frames by assumption.
  split; [reflexivity |].
  destruct (Rle_dec 0 (life p - fade kind * total_time dts)) as [H | H].
  - rewrite Rmax_right by exact H. lra.
  - rewrite Rmax_left by lra. lra.
Qed.

Lemma frame_dts_nonneg (last : R) (ts : list R) :
  Forall (fun dt => 0 <= dt) (frame_dts last ts).
Proof.
  revert last. induction ts as [| t ts IH]; intros last; simpl.
  - constructor.
  - constructor; [apply frame_dt_bounds | apply IH].
Qed.

Lemma frame_dts_total (last : R) (ts : list R) :
  total_time (frame_dts last ts) <= 0.033 * INR (length ts).
Proof.
  revert last. induction ts as [| t ts IH]; intros last.
  - unfold total_time. simpl. lra.
  - change (frame_dts last (t :: ts)) with
      (frame_dt t last :: frame_dts t ts).
    change (total_time (frame_dt t last :: frame_dts t ts))
      with (frame_dt t last + total_time (frame_dts t ts)).
    change (length (t :: ts)) with (S (length ts)). rewrite S_INR.
    pose proof (frame_dt_bounds t last). specialize (IH t). lra.
Qed.

(** A particle that has faded out stays faded out. *)
Lemma dead_stays_dead (kind : BurstKind) (dts : list R) :
  Forall (fun dt => 0 <= dt) dts ->
  forall p : Particle, life p <= 0 -> life (after_frames kind dts p) <= 0.
Proof.
  induction 1 as [| dt dts Hdt Hdts IH]; intros p Hl; [exact Hl |].
  rewrite after_frames_cons. apply IH. rewrite physics_life.
  pose proof (fade_pos kind). rewrite clamp_nonpos.
  - lra.
  - nra.
Qed.

Lemma filter_all {A : Type} (f : A -> bool) (l : list A) :
  (forall a, In a l -> f a = true) -> filter f l = l.
Proof.
  intros H. apply forallb_filter_id. apply forallb_forall. exact H.
Qed.

Lemma filter_none {A : Type} (f : A -> bool) (l : list A) :
  (forall a, In a l -> f a = false) -> filter f l = [].
Proof.
  induction l as [| a l IH]; intros H; [reflexivity |].
  simpl. rewrite (H a (or_introl eq_refl)). apply IH.
  intros b Hb. apply H. now right.
Qed.

(** Culling the dead before more frames or after them gives the same
    burst. *)
Lemma filter_after_frames (kind : BurstKind) (dts : list R)
    (l : list Particle) :
  Forall (fun dt => 0 <= dt) dts ->
  filter (fun p => num_gt (life p) 0)
    (map (after_frames kind dts) (filter (fun p => num_gt (life p) 0) l))
  = filter (fun p => num_gt (life p) 0) (map (after_frames kind dts) l).
Proof.
  intros Hdts. induction l as [| p l IH]; [reflexivity |].
  simpl. destruct (num_gt (life p) 0) eqn:Hp.
  - simpl. now rewrite IH.
  - rewrite IH. rewrite num_gt_false; [reflexivity |].
    apply dead_stays_dead; [exact Hdts |].
    destruct (Rle_dec (life p) 0) as [H | H]; [exact H |].
    rewrite num_gt_true in Hp by lra. discriminate Hp.
Qed.

Lemma tick_refs (kind : BurstKind) (rect : Rect) (t : R) (handle : nat)
    (st : Loop) (i : nat) :
  let st' := fst (fst (tick kind rect t handle st i)) in
  lastTRef st' = t /\ (rafRef st' = None <-> particlesRef st' = []).
Proof.
  unfold tick, bind.
  destruct (for_particles kind (frame_dt t (lastTRef st)) (particlesRef st) i)
    as [r j].
  simpl. split; [reflexivity |].
  destruct (filter (fun p => num_gt (life p) 0) (fst r)); split; intros H;
    reflexivity || discriminate H.
Qed.

Lemma run_idle (kind : BurstKind) (rect : Rect) (frames : list (R * nat))
    (st : Loop) (i : nat) :
  rafRef st = None -> run kind rect frames st i = ((st, []), i).
Proof.
  intros H. destruct frames as [| [t handle] rest]; [reflexivity |].
  simpl. rewrite H. reflexivity.
Qed.

Lemma run_step (kind : BurstKind) (rect : Rect) (t : R) (handle : nat)
    (rest : list (R * nat)) (st : Loop) (i : nat) :
  rafRef st <> None ->
  run kind rect ((t, handle) :: rest) st i
  = (let (r, j) := tick kind rect t handle st i in
     let (r', k) := run kind rect rest (fst r) j in
     ((fst r', snd r :: snd r'), k)).
Proof.
  intros H. simpl. destruct (rafRef st); [reflexivity | contradiction].
Qed.

Lemma run_particles (kind : BurstKind) (rect : Rect)
    (frames : list (R * nat)) :
  forall (st : Loop) (i : nat),
    Forall (fun p => life p > 0) (particlesRef st) ->
    (rafRef st = None -> particlesRef st = []) ->
    particlesRef (fst (fst (run kind rect frames st i)))
    = filter (fun p => num_gt (life p) 0)
        (map (after_frames kind (frame_dts (lastTRef st) (map fst frames)))
             (particlesRef st)).
Proof.
  induction frames as [| [t handle] rest IH]; intros st i Hal Hraf.
  - simpl. rewrite map_id. symmetry. apply filter_all.
    rewrite Forall_forall in Hal. intros p Hp.
    apply num_gt_true. now apply Hal.
  - destruct (rafRef st) as [h0 |] eqn:Hr.
    + rewrite run_step by (rewrite Hr; discriminate).
      pose proof (tick_particles kind rect t handle st i) as Htp.
      pose proof (tick_refs kind rect t handle st i) as [Hlt Hrf].
      destruct (tick kind rect t handle st i) as [r j]. simpl in Htp, Hlt, Hrf.
      specialize (IH (fst r) j).
      destruct (run kind rect rest (fst r) j) as [r' k]. simpl in *.
      rewrite IH.
      * rewrite Hlt, Htp.
        rewrite filter_after_frames by apply frame_dts_nonneg.
        now rewrite map_map.
      * rewrite Htp. apply Forall_forall. intros q Hq.
        apply filter_In in Hq. now apply num_gt_iff.
      * apply Hrf.
    + rewrite run_idle by exact Hr. simpl. now rewrite (Hraf eq_refl).
Qed.

Lemma reachable_pending (kind : BurstKind) (rect : Rect) (s : Loop * nat) :
  Reachable kind rect s ->
  (rafRef (fst s) = None <-> particlesRef (fst s) = []).
Proof.
  intros H. destruct H as [now handle st0 i Hk | st i t handle H].
  - rewrite activate_burst by exact Hk. simpl.
    pose proof (makeParticles_length kind (width rect / 2) (height rect / 2) i)
      as Hlen.
    split; intros H; [discriminate H |].
    rewrite H in Hlen. unfold particle_count in Hlen.
    destruct (BurstKind_eqb kind game); discriminate Hlen.
  - pose proof (tick_refs kind rect t handle st i) as [_ Hrf].
    destruct (tick kind rect t handle st i) as [r j]. exact Hrf.
Qed.

(** X11.  In a burst the loop can reach, running frames culls frame by frame
    and yet leaves exactly the particles that are alive after all the
    frames, each advanced through all of them by the clamped elapsed
    times. *)
Theorem run_culls_like_one_pass (kind : BurstKind) (rect : Rect)
    (s : Loop * nat) (frames : list (R * nat)) :
  Reachable kind rect s ->
  particlesRef (fst (fst (run kind rect frames (fst s) (snd s))))
  = filter (fun p => num_gt (life p) 0)
      (map (after_frames kind
              (frame_dts (lastTRef (fst s)) (map fst frames)))
           (particlesRef (fst s))).
Proof.
  intros Hr. apply run_particles.
  - pose proof (reachable_life kind rect s Hr) as Hinv.
    eapply Forall_impl; [| exact Hinv]. simpl. intros p Hp. lra.
  - apply (reachable_pending kind rect s Hr).
Qed.

(** X12.  In a burst the loop can reach a frame is pending exactly when
    particles are left.  Every frame asks for the next one exactly when
    it keeps a particle.  A frame that finds no particles, as one that
    comes after [cleanup] would, clears the canvas and does nothing
    else: it draws nothing, takes nothing from the random source and
    leaves no frame pending. *)
Theorem pending_iff_particles (kind : BurstKind) (rect : Rect)
    (s : Loop * nat) :
  Reachable kind rect s ->
  (rafRef (fst s) = None <-> particlesRef (fst s) = [])
  /\ (forall (t : R) (handle : nat) (st : Loop) (i : nat),
         let st' := fst (fst (tick kind rect t handle st i)) in
         (particlesRef st' <> [] -> rafRef st' = Some handle)
         /\ (particlesRef st' = [] -> rafRef st' = None))
  /\ (forall (t : R) (handle : nat) (st : Loop) (i : nat),
         particlesRef st = [] ->
         tick kind rect t handle st i
         = (({| particlesRef := []; lastTRef := t; rafRef := None |},
             [clearRect 0 0 (width rect) (height rect)]), i))
  /\ (forall (t : R) (handle : nat) (st : Loop) (i : nat),
         tick kind rect t handle (cleanup st) i
         = (({| particlesRef := []; lastTRef := t; rafRef := None |},
             [clearRect 0 0 (width rect) (height rect)]), i)).
Proof.
  intros Hr. pose proof (reachable_pending kind rect s Hr) as Hp.
  split; [exact Hp |].
  assert (Hempty : forall (t : R) (handle : nat) (st : Loop) (i : nat),
             particlesRef st = [] ->
             tick kind rect t handle st i
             = (({| particlesRef := []; lastTRef := t; rafRef := None |},
                 [clearRect 0 0 (width rect) (height rect)]), i)).
  { intros t handle st i He. unfold tick, bind. rewrite He. reflexivity. }
  split; [| split; [exact Hempty | intros; now apply Hempty]].
  intros t handle st i. cbv zeta. unfold tick, bind.
  destruct (for_particles kind (frame_dt t (lastTRef st)) (particlesRef st) i)
    as [r j].
  simpl.
  destruct (filter (fun p => num_gt (life p) 0) (fst r)); split; intros H;
    reflexivity || discriminate H || (exfalso; now apply H).
Qed.

(** X13.  All the particles of a burst have the same [life], so they fade out
    in the same frame: a burst the loop can reach has every particle the
    factory made, or none. *)
Theorem burst_is_whole_or_empty (kind : BurstKind) (rect : Rect)
    (s : Loop * nat) :
  Reachable kind rect s ->
  (exists l, 0 < l <= 1
             /\ Forall (fun p => life p = l) (particlesRef (fst s)))
  /\ (particlesRef (fst s) = []
      \/ length (particlesRef (fst s)) = particle_count kind).
Proof.
  intros H. induction H as [now handle st0 i Hk | st i t handle H IH].
  - rewrite activate_burst by exact Hk. simpl. split.
    + exists 1. split; [lra |]. apply makeParticles_all. intros j.
      destruct (spawn_fields kind (width rect / 2) (height rect / 2) j)
        as [_ [_ [Hl _]]].
      exact Hl.
    + right. apply makeParticles_length.
  - pose proof (tick_particles kind rect t handle st i) as Ht.
    destruct (tick kind rect t handle st i) as [r j]. simpl in *.
    destruct IH as [[l [Hl Hall]] Hlen].
    set (dt := frame_dt t (lastTRef st)) in *.
    set (l' := clamp (l - dt * fade kind) 0 1).
    assert (Hmap : forall q, In q (map (physics kind dt) (particlesRef st))
                             -> life q = l').
    { intros q Hq. apply in_map_iff in Hq. destruct Hq as [p [Hq Hp]].
      subst q. rewrite physics_life. rewrite Forall_forall in Hall.
      now rewrite (Hall p Hp). }
    rewrite Ht. destruct (Rle_dec l' 0) as [Hd | Ha].
    + rewrite filter_none.
      * split; [exists 1; split; [lra | constructor] | now left].
      * intros q Hq. apply num_gt_false. now rewrite (Hmap q Hq).
    + rewrite filter_all.
      * split.
        -- exists l'. split.
           ++ pose proof (clamp_bounds (l - dt * fade kind) 0 1) as Hcb.
              fold l' in Hcb. lra.
           ++ apply Forall_forall. exact Hmap.
        -- rewrite length_map. destruct Hlen as [He | Hn]; [| now right].
           left. now rewrite He.
      * intros q Hq. apply num_gt_true. rewrite (Hmap q Hq). lra.
Qed.

(** ** The life of a burst *)

(** What the factory gives every particle, in one place. *)
Lemma spawned (kind : BurstKind) (x0 y0 : R) (i : nat) :
  unit_draws rnd ->
  Forall (fun p =>
            x p = x0 /\ y p = y0 /\ life p = 1
            /\ - (speed_hi kind + 60) <= vx p <= speed_hi kind + 60
            /\ - (speed_hi kind + 40) <= vy p < 40)
         (fst (makeParticles kind x0 y0 i)).
Proof.
  intros Hu. apply makeParticles_all. intros j.
  destruct (spawn_fields kind x0 y0 j) as [Hx [Hy [Hl _]]].
  destruct (spawn_velocity_range kind x0 y0 j Hu) as [Hvx Hvy].
  assert (0 <= speed_lo kind)
    by (unfold speed_lo; destruct (BurstKind_eqb kind game); lra).
  repeat split; try assumption; lra.
Qed.

Lemma activated_run (kind : BurstKind) (rect : Rect) (now : R)
    (handle : nat) (st0 : Loop) (i : nat) (frames : list (R * nat)) :
  kind <> none ->
  let s0 := activate true kind (Some rect) now handle st0 i in
  let dts := frame_dts now (map fst frames) in
  particlesRef (fst (fst (run kind rect frames (fst s0) (snd s0))))
  = filter (fun p => num_gt (life p) 0)
      (map (after_frames kind dts)
           (fst (makeParticles kind (width rect / 2) (height rect / 2) i))).
Proof.
  intros Hk s0 dts.
  assert (Hr : Reachable kind rect s0) by (now apply reach_activate).
  rewrite run_particles.
  - unfold s0. rewrite activate_burst by exact Hk. reflexivity.
  - pose proof (reachable_life kind rect s0 Hr) as Hinv.
    eapply Forall_impl; [| exact Hinv]. simpl. intros p Hp. lra.
  - apply (reachable_pending kind rect s0 Hr).
Qed.

(** X14.  From activation, the burst lasts as long as the clamped elapsed times
    of its frames add up to less than [1 / fade]: until then every
    particle is there, advanced through all the frames, and from then on
    none is.  No frame counts for more than 0.033 s, so a "game" burst is
    whole after its first 22 frames and a "media" burst after its first
    25, whatever their timestamps. *)
Theorem burst_lifetime (kind : BurstKind) (rect : Rect) (now : R)
    (handle : nat) (st0 : Loop) (i : nat) (frames : list (R * nat)) :
  kind <> none ->
  let s0 := activate true kind (Some rect) now handle st0 i in
  let dts := frame_dts now (map fst frames) in
  let ps := particlesRef
              (fst (fst (run kind rect frames (fst s0) (snd s0)))) in
  (fade kind * total_time dts < 1 ->
   ps = map (after_frames kind dts) (particlesRef (fst s0)))
  /\ (1 <= fade kind * total_time dts -> ps = [])
  /\ ((length frames <= match kind with game => 22 | _ => 25 end)%nat ->
      length ps = particle_count kind).
Proof.
  intros Hk s0 dts ps.
  assert (Hps : ps = filter (fun p => num_gt (life p) 0)
                       (map (after_frames kind dts)
                            (fst (makeParticles kind (width rect / 2)
                                    (height rect / 2) i))))
    by (apply activated_run; exact Hk).
  assert (Hs0 : particlesRef (fst s0)
                = fst (makeParticles kind (width rect / 2)
                         (height rect / 2) i))
    by (unfold s0; rewrite activate_burst by exact Hk; reflexivity).
  assert (Hdts : Forall (fun dt => 0 <= dt) dts)
    by apply frame_dts_nonneg.
  assert (Hlife : forall q,
             In q (map (after_frames kind dts)
                     (fst (makeParticles kind (width rect / 2)
                             (height rect / 2) i))) ->
             life q = Rmax 0 (1 - fade kind * total_time dts)).
  { intros q Hq. apply in_map_iff in Hq. destruct Hq as [p [Hq Hp]].
    subst q.
    assert (Hl : life p = 1).
    { assert (Hall : Forall (fun p => life p = 1)
                       (fst (makeParticles kind (width rect / 2)
                               (height rect / 2) i))).
      { apply makeParticles_all. intros j.
        now destruct (spawn_fields kind (width rect / 2)
                        (height rect / 2) j) as [_ [_ [Hl _]]]. }
      rewrite Forall_forall in Hall. now apply Hall. }
    rewrite life_after_frames by (exact Hdts || lra). now rewrite Hl. }
  assert (Hwhole : fade kind * total_time dts < 1 ->
                   ps = map (after_frames kind dts) (particlesRef (fst s0))).
  { intros Hlt. rewrite Hps, Hs0. apply filter_all. intros q Hq.
    apply num_gt_true. rewrite (Hlife q Hq). rewrite Rmax_right; lra. }
  split; [exact Hwhole |]. split.
  - intros Hge. rewrite Hps. apply filter_none. intros q Hq.
    apply num_gt_false. rewrite (Hlife q Hq). rewrite Rmax_left; lra.
  - intros Hn. rewrite Hwhole.
    + rewrite length_map, Hs0. apply makeParticles_length.
    + pose proof (frame_dts_total now (map fst frames)) as Ht.
      fold dts in Ht. rewrite length_map in Ht.
      pose proof (total_time_nonneg dts Hdts) as Ht0.
      apply le_INR in Hn. unfold fade.
      clear Hps Hs0 Hlife Hwhole.
      destruct kind; [contradiction | |]; simpl in Hn |- *; lra.
Qed.

(** X15.  From activation on a canvas of any size, whatever the draws and the
    frames, every particle of a "game" burst is within 312 units of the
    centre sideways, at most 297 above it and at most 46 below it; for a
    "media" burst the figures are 284, 267 and 49. *)
Theorem burst_stays_near_origin (kind : BurstKind) (rect : Rect) (now : R)
    (handle : nat) (st0 : Loop) (i : nat) (frames : list (R * nat)) :
  unit_draws rnd ->
  kind <> none ->
  let s0 := activate true kind (Some rect) now handle st0 i in
  Forall (fun q =>
            Rabs (x q - width rect / 2)
            <= match kind with game => 312 | _ => 284 end
            /\ - match kind with game => 297 | _ => 267 end
               <= y q - height rect / 2
               <= match kind with game => 46 | _ => 49 end)
         (particlesRef (fst (fst (run kind rect frames (fst s0) (snd s0))))).
Proof.
  intros Hu Hk s0. unfold s0. rewrite activated_run by exact Hk.
  set (dts := frame_dts now (map fst frames)).
  assert (Hdts : Forall (fun dt => 0 <= dt) dts)
    by apply frame_dts_nonneg.
  pose proof (total_time_nonneg dts Hdts) as Ht0.
  pose proof (spawned kind (width rect / 2) (height rect / 2) i Hu) as Hsp.
  rewrite Forall_forall in Hsp.
  apply Forall_forall. intros q Hq.
  apply filter_In in Hq. destruct Hq as [Hq Hal].
  apply num_gt_iff in Hal.
  apply in_map_iff in Hq. destruct Hq as [p [Hq Hp]]. subst q.
  destruct (Hsp p Hp) as [Hx [Hy [Hl [Hvx Hvy]]]].
  rewrite life_after_frames in Hal by (exact Hdts || lra).
  assert (Hft : fade kind * total_time dts < 1).
  { destruct (Rle_dec 1 (fade kind * total_time dts)) as [Hge | Hlt];
      [| lra].
    rewrite Rmax_left in Hal by lra. lra. }
  assert (Hterm : 40 <= terminal kind /\ terminal kind
                  <= match kind with game => 62 | _ => 58.4 end).
  { unfold terminal, g, drag. destruct kind; simpl; split; lra. }
  destruct (after_frames_bounds kind (speed_hi kind + 60)
              (speed_hi kind + 40) (terminal kind) dts Hdts)
    with (p := p) as [_ [_ [Hbx Hby]]].
  - unfold speed_hi. destruct (BurstKind_eqb kind game); lra.
  - lra.
  - exact Hvx.
  - lra.
  - rewrite Hx in Hbx. rewrite Hy in Hby.
    unfold speed_hi, fade in Hbx, Hby, Hft.
    clear Hsp Hp Hvx Hvy Hal.
    set (tau := terminal kind) in *.
    set (T := total_time dts) in *.
    assert (Hfall : tau * T
                    <= match kind with game => 62 | _ => 58.4 end * T)
      by (apply Rmult_le_compat_r; lra).
    destruct kind; [contradiction | |];
      simpl in Hbx, Hby, Hft, Hfall |- *;
      (split; [apply Rabs_le; split; lra | split; lra]).
Qed.

(** ** What a frame writes to the context, continued *)

(** X16.  The log of a frame is well bracketed: after the [clearRect] every
    write of the drawing state is between a [save] and its [restore],
    and the [save] stack is empty at the end, so no colour, opacity or
    transform is left over for the next particle or the next frame. *)
Theorem tick_log_bracketed (kind : BurstKind) (rect : Rect) (t : R)
    (handle : nat) (st : Loop) (i : nat) :
  scan 0 (snd (fst (tick kind rect t handle st i))) = Some 0%nat.
Proof.
  rewrite tick_log. simpl.
  apply (for_particles_shape kind (frame_dt t (lastTRef st))
           (particlesRef st) i 0%nat).
Qed.

(** X17.  The opacities a frame writes are the [life] values of the particles
    it keeps, one each and in order: a particle is drawn once and never
    with an opacity outside [(0, 1]]. *)
Theorem tick_opacities (kind : BurstKind) (rect : Rect) (t : R)
    (handle : nat) (st : Loop) (i : nat) :
  let r := fst (tick kind rect t handle st i) in
  alphas (snd r) = map life (particlesRef (fst r))
  /\ Forall (fun a => 0 < a <= 1) (alphas (snd r)).
Proof.
  cbv zeta.
  assert (Ha : alphas (snd (fst (tick kind rect t handle st i)))
               = map life (particlesRef
                             (fst (fst (tick kind rect t handle st i))))).
  { rewrite tick_log, tick_particles. simpl.
    apply (for_particles_shape kind (frame_dt t (lastTRef st))
             (particlesRef st) i 0%nat). }
  split; [exact Ha |].
  rewrite Ha, tick_particles. apply Forall_forall. intros a Hin.
  apply in_map_iff in Hin. destruct Hin as [q [Hq Hin]]. subst a.
  apply filter_In in Hin. destruct Hin as [Hin Hal].
  apply num_gt_iff in Hal.
  apply in_map_iff in Hin. destruct Hin as [p [Hp _]]. subst q.
  pose proof (physics_life_bounds kind (frame_dt t (lastTRef st)) p).
  lra.
Qed.

(** X18.  A "game" frame takes nothing from the random source; a frame of
    another kind takes one draw for each particle it keeps. *)
Theorem tick_draws (kind : BurstKind) (rect : Rect) (t : R)
    (handle : nat) (st : Loop) (i : nat) :
  snd (tick kind rect t handle st i)
  = match kind with
    | game => i
    | _ => (i + length (particlesRef
                          (fst (fst (tick kind rect t handle st i)))))%nat
    end.
Proof.
  rewrite tick_particles. unfold tick, bind.
  destruct (for_particles_shape kind (frame_dt t (lastTRef st))
              (particlesRef st) i 0%nat) as [_ [_ Hc]].
  destruct (for_particles kind (frame_dt t (lastTRef st)) (particlesRef st) i)
    as [r j].
  simpl in Hc |- *. rewrite Hc. destruct kind; reflexivity.
Qed.

End Burst.

(** * Instances *)

Lemma half_draws_unit : unit_draws half_draws.
Proof. intros i. unfold half_draws. lra. Qed.

(** C5, as stated, at "none": the call does not throw, though "none" is
    neither "game" nor "media". *)
Lemma none_is_not_rejected :
  ~ ((exists e, call_makeParticles half_draws none 100 100 0 = Throw e)
     <-> ~ recognized none).
Proof.
  intros [_ H].
  destruct H as [e He].
  - intros [Hk | Hk]; discriminate Hk.
  - unfold call_makeParticles in He. discriminate He.
Qed.

(** C3 on the source of halves, from the origin [(100, 100)]. *)
Lemma makeParticles_spawn_ranges_half :
  unit_draws half_draws
  /\ length (fst (makeParticles half_draws game 100 100 0%nat)) = 55%nat
  /\ length (fst (makeParticles half_draws media 100 100 0%nat)) = 45%nat
  /\ Forall (fun p =>
               life p = 1
               /\ 4 <= size p <= 10
               /\ (exists j, size p = half_draws j * (10 - 4) + 4)
               /\ -6 <= vr p <= 6
               /\ 0 <= rot p < 2 * PI)
            (fst (makeParticles half_draws game 100 100 0%nat))
  /\ Forall (fun p =>
               life p = 1
               /\ 3 <= size p <= 9
               /\ (exists j, size p = half_draws j * (9 - 3) + 3)
               /\ -6 <= vr p <= 6
               /\ 0 <= rot p < 2 * PI)
            (fst (makeParticles half_draws media 100 100 0%nat)).
Proof.
  split; [exact half_draws_unit |].
  apply (makeParticles_spawn_ranges half_draws 100 100 0%nat).
  intros i. unfold half_draws. lra.
Defined.

(** C2 on the first particle of a "game" burst just activated on a 200 by
    200 canvas at time [0], stepped by [1/60]. *)
Lemma life_in_unit_interval_non_increasing_first :
  let rect := mkRect 200 200 in
  let s := activate half_draws true game (Some rect) 0 1 initial_refs 0%nat in
  let p := fst (spawn half_draws game (200 / 2) (200 / 2) 0%nat) in
  Reachable half_draws game rect s
  /\ In p (particlesRef (fst s))
  /\ 0 <= 1 / 60
  /\ 0 <= life p <= 1
  /\ life (physics game (1 / 60) p) = clamp (life p - fade game * (1 / 60)) 0 1
  /\ 0 <= life (physics game (1 / 60) p) <= 1
  /\ life (physics game (1 / 60) p) <= life p
  /\ forall (t : R) (handle : nat),
      Forall (fun p' =>
                0 <= life p' <= 1
                /\ exists q, In q (particlesRef (fst s))
                             /\ p' = physics game
                                       (frame_dt t (lastTRef (fst s))) q
                             /\ life p' <= life q)
             (particlesRef
                (fst (fst (tick half_draws game rect t handle
                             (fst s) (snd s))))).
Proof.
  intros rect s p.
  assert (Hr : Reachable half_draws game rect s)
    by (apply reach_activate; discriminate).
  assert (Hin : In p (particlesRef (fst s))).
  { unfold s. rewrite activate_burst by discriminate.
    apply first_spawn_in. }
  assert (Hdt : 0 <= 1 / 60) by lra.
  split; [exact Hr |]. split; [exact Hin |]. split; [exact Hdt |].
  exact (life_in_unit_interval_non_increasing half_draws game rect s p
           (1 / 60) Hr Hin Hdt).
Defined.

(** C7 on a "game" burst just activated at time [0], with the first
    frame at time [0]. *)
Lemma zero_dt_frame_is_identity_at_activation :
  let rect := mkRect 200 200 in
  let s := activate half_draws true game (Some rect) 0 1 initial_refs 0%nat in
  let r := fst (tick half_draws game rect 0 2 (fst s) (snd s)) in
  Reachable half_draws game rect s
  /\ frame_dt 0 (lastTRef (fst s)) = 0
  /\ (forall t' last,
         0 <= frame_dt t' last <= 0.033
         /\ (t' <= last -> frame_dt t' last = 0)
         /\ (0 <= t' - last <= 33 -> frame_dt t' last = (t' - last) / 1000)
         /\ (33 <= t' - last -> frame_dt t' last = 0.033))
  /\ (forall t' handle' st' i',
         particlesRef
           (fst (fst (tick half_draws game rect t' handle' st' i')))
         = filter (fun p => num_gt (life p) 0)
             (map (physics game (frame_dt t' (lastTRef st')))
                  (particlesRef st'))
         /\ lastTRef (fst (fst (tick half_draws game rect t' handle' st' i')))
            = t')
  /\ Forall (fun p => physics game 0 p = p) (particlesRef (fst s))
  /\ particlesRef (fst r) = particlesRef (fst s)
  /\ (exists js : list nat,
         length js = length (particlesRef (fst s))
         /\ snd r
            = clearRect 0 0 (width rect) (height rect)
                :: concat (map (fun pj =>
                                  fst (draw half_draws game (fst pj) (snd pj)))
                               (combine (particlesRef (fst s)) js)))
  /\ alphas (snd r) = map life (particlesRef (fst s))
  /\ Forall (fun p =>
               life p = 1 ->
               forall j,
                 In (set_globalAlpha 1)
                    (fst (draw half_draws game (physics game 0 p) j)))
            (particlesRef (fst s))
  /\ (forall now handle0 st0 i0 t0 handle1,
         t0 <= now ->
         let s0 := activate half_draws true game (Some rect) now handle0
                     st0 i0 in
         let r0 := fst (tick half_draws game rect t0 handle1
                          (fst s0) (snd s0)) in
         particlesRef (fst r0) = particlesRef (fst s0)
         /\ length (particlesRef (fst r0)) = particle_count game
         /\ alphas (snd r0) = repeat 1 (particle_count game)).
Proof.
  intros rect s r.
  assert (Hr : Reachable half_draws game rect s)
    by (apply reach_activate; discriminate).
  assert (Hdt : frame_dt 0 (lastTRef (fst s)) = 0).
  { unfold s. rewrite activate_burst by discriminate. simpl.
    unfold frame_dt. replace ((0 - 0) / 1000) with 0 by lra.
    apply clamp_inside. lra. }
  split; [exact Hr |]. split; [exact Hdt |].
  exact (zero_dt_frame_is_identity half_draws game rect s 0 2%nat Hr Hdt).
Defined.

(** ** Instances of the further properties *)

Lemma clamp_laws_frame :
  0 <= 0.033
  /\ 0 <= clamp 0.05 0 0.033 <= 0.033
  /\ (0 <= 0.05 <= 0.033 -> clamp 0.05 0 0.033 = 0.05)
  /\ clamp (clamp 0.05 0 0.033) 0 0.033 = clamp 0.05 0 0.033
  /\ (0.05 <= 0.1 -> clamp 0.05 0 0.033 <= clamp 0.1 0 0.033).
Proof.
  assert (H : 0 <= 0.033) by lra.
  split; [exact H |]. exact (clamp_laws 0 0.033 0.05 0.1 H).
Defined.

Lemma clamp_inverted_bounds_unit : 0 < 1 /\ clamp 5 1 0 = 1.
Proof.
  assert (H : 0 < 1) by lra.
  split; [exact H |]. exact (clamp_inverted_bounds 1 0 5 H).
Defined.

Lemma rand_in_range_half :
  unit_draws half_draws
  /\ 4 <= 10
  /\ 4 <= fst (rand half_draws 4 10 0%nat) <= 10
  /\ snd (rand half_draws 4 10 0%nat) = 1%nat.
Proof.
  assert (H : 4 <= 10) by lra.
  split; [exact half_draws_unit |]. split; [exact H |].
  exact (rand_in_range half_draws 4 10 0%nat half_draws_unit H).
Defined.

Lemma spawn_velocity_bounds_half :
  unit_draws half_draws
  /\ Forall (fun p => Rabs (vx p) <= 420 /\ -400 <= vy p < 0)
            (fst (makeParticles half_draws game 100 100 0%nat))
  /\ Forall (fun p => Rabs (vx p) <= 340 /\ -320 <= vy p < 40)
            (fst (makeParticles half_draws media 100 100 0%nat)).
Proof.
  split; [exact half_draws_unit |].
  exact (spawn_velocity_bounds half_draws 100 100 0%nat half_draws_unit).
Defined.

Lemma two_frames_nonneg : Forall (fun dt => 0 <= dt) [1 / 60; 1 / 120].
Proof. repeat constructor; lra. Qed.

Lemma horizontal_motion_decays_sample :
  Forall (fun dt => 0 <= dt) [1 / 60; 1 / 120]
  /\ let q := after_frames game [1 / 60; 1 / 120] sample_particle in
     Rabs (vx q) <= Rabs (vx sample_particle)
     /\ 0 <= vx sample_particle * vx q
     /\ Rabs (x q - x sample_particle)
        <= Rabs (vx sample_particle) * total_time [1 / 60; 1 / 120].
Proof.
  split; [exact two_frames_nonneg |].
  exact (horizontal_motion_decays game [1 / 60; 1 / 120] sample_particle
           two_frames_nonneg).
Defined.

Lemma falling_speed_capped_sample :
  Forall (fun dt => 0 <= dt) [1 / 60; 1 / 120]
  /\ vy sample_particle <= terminal game
  /\ vy (after_frames game [1 / 60; 1 / 120] sample_particle)
     <= terminal game
  /\ terminal game < 62 /\ terminal media < 59.
Proof.
  assert (H : vy sample_particle <= terminal game).
  { pose proof (terminal_pos game). simpl. lra. }
  split; [exact two_frames_nonneg |]. split; [exact H |].
  exact (falling_speed_capped game [1 / 60; 1 / 120] sample_particle
           two_frames_nonneg H).
Defined.

Lemma fade_by_elapsed_time_sample :
  Forall (fun dt => 0 <= dt) [1 / 60; 1 / 120]
  /\ 0 <= life sample_particle <= 1
  /\ life (after_frames game [1 / 60; 1 / 120] sample_particle)
     = Rmax 0 (life sample_particle
               - fade game * total_time [1 / 60; 1 / 120])
  /\ (life (after_frames game [1 / 60; 1 / 120] sample_particle) > 0
      <-> fade game * total_time [1 / 60; 1 / 120]
          < life sample_particle).
Proof.
  assert (H : 0 <= life sample_particle <= 1) by (simpl; lra).
  split; [exact two_frames_nonneg |]. split; [exact H |].
  exact (fade_by_elapsed_time game [1 / 60; 1 / 120] sample_particle
           two_frames_nonneg H).
Defined.

Lemma game_burst_reachable :
  Reachable half_draws game sample_rect
    (activate half_draws true game (Some sample_rect) 0 1 initial_refs
       0%nat).
Proof. apply reach_activate. discriminate. Qed.

Lemma run_culls_like_one_pass_first :
  let s := activate half_draws true game (Some sample_rect) 0 1
             initial_refs 0%nat in
  let frames := [(16, 2%nat); (33, 3%nat)] in
  Reachable half_draws game sample_rect s
  /\ particlesRef
       (fst (fst (run half_draws game sample_rect frames (fst s) (snd s))))
     = filter (fun p => num_gt (life p) 0)
         (map (after_frames game
                 (frame_dts (lastTRef (fst s)) (map fst frames)))
              (particlesRef (fst s))).
Proof.
  intros s frames. split; [exact game_burst_reachable |].
  exact (run_culls_like_one_pass half_draws game sample_rect s frames
           game_burst_reachable).
Defined.

Lemma pending_iff_particles_first :
  let s := activate half_draws true game (Some sample_rect) 0 1
             initial_refs 0%nat in
  Reachable half_draws game sample_rect s
  /\ (rafRef (fst s) = None <-> particlesRef (fst s) = [])
  /\ (forall (t : R) (handle : nat) (st : Loop) (i : nat),
         let st' := fst (fst (tick half_draws game sample_rect t handle
                                st i)) in
         (particlesRef st' <> [] -> rafRef st' = Some handle)
         /\ (particlesRef st' = [] -> rafRef st' = None))
  /\ (forall (t : R) (handle : nat) (st : Loop) (i : nat),
         particlesRef st = [] ->
         tick half_draws game sample_rect t handle st i
         = (({| particlesRef := []; lastTRef := t; rafRef := None |},
             [clearRect 0 0 (width sample_rect) (height sample_rect)]), i))
  /\ (forall (t : R) (handle : nat) (st : Loop) (i : nat),
         tick half_draws game sample_rect t handle (cleanup st) i
         = (({| particlesRef := []; lastTRef := t; rafRef := None |},
             [clearRect 0 0 (width sample_rect) (height sample_rect)]), i)).
Proof.
  intros s. split; [exact game_burst_reachable |].
  exact (pending_iff_particles half_draws game sample_rect s
           game_burst_reachable).
Defined.

Lemma burst_is_whole_or_empty_first :
  let s := activate half_draws true game (Some sample_rect) 0 1
             initial_refs 0%nat in
  Reachable half_draws game sample_rect s
  /\ (exists l, 0 < l <= 1
                /\ Forall (fun p => life p = l) (particlesRef (fst s)))
  /\ (particlesRef (fst s) = []
      \/ length (particlesRef (fst s)) = particle_count game).
Proof.
  intros s. split; [exact game_burst_reachable |].
  exact (burst_is_whole_or_empty half_draws game sample_rect s
           game_burst_reachable).
Defined.

Lemma game_is_not_none : game <> none.
Proof. discriminate. Qed.

Lemma burst_lifetime_game :
  let frames := [(16, 2%nat); (33, 3%nat)] in
  let s0 := activate half_draws true game (Some sample_rect) 0 1
              initial_refs 0%nat in
  let dts := frame_dts 0 (map fst frames) in
  let ps := particlesRef
              (fst (fst (run half_draws game sample_rect frames
                           (fst s0) (snd s0)))) in
  game <> none
  /\ (fade game * total_time dts < 1 ->
      ps = map (after_frames game dts) (particlesRef (fst s0)))
  /\ (1 <= fade game * total_time dts -> ps = [])
  /\ ((length frames <= 22)%nat -> length ps = particle_count game).
Proof.
  intros frames s0 dts ps. split; [exact game_is_not_none |].
  exact (burst_lifetime half_draws game sample_rect 0 1%nat initial_refs
           0%nat frames game_is_not_none).
Defined.

Lemma burst_stays_near_origin_game :
  let frames := [(16, 2%nat); (33, 3%nat)] in
  let s0 := activate half_draws true game (Some sample_rect) 0 1
              initial_refs 0%nat in
  unit_draws half_draws
  /\ game <> none
  /\ Forall (fun q =>
               Rabs (x q - width sample_rect / 2) <= 312
               /\ - 297 <= y q - height sample_rect / 2 <= 46)
            (particlesRef
               (fst (fst (run half_draws game sample_rect frames
                            (fst s0) (snd s0))))).
Proof.
  intros frames s0.
  split; [exact half_draws_unit |]. split; [exact game_is_not_none |].
  exact (burst_stays_near_origin half_draws game sample_rect 0 1%nat
           initial_refs 0%nat frames half_draws_unit game_is_not_none).
Defined.
